(** * polyplay.py: a shallow embedding and its verified properties

    The development follows the layout of [polyplay.py]: a small layer of
    Python primitives ([Py]), then one module per class of the script
    ([Config], [Utils], [Player], [PolyPlay]), the vocabulary of the
    statements, and then the properties, function by function.

    Modelling conventions.
    - A Python [int] is a [Z]; [//] and [%] with a positive divisor are
      [Z.div] and [Z.modulo] (both round towards minus infinity, as Python).
    - A Python [str] is the list of its characters.  Characters are [ascii]
      values, i.e. code points below 256.
    - A Python object has an identity.  A [Player] carries it in the field
      [oid]; the interpreter hands out a fresh one at every construction.
    - [playerctl] is the outside world: what its invocations print is a
      parameter ([Playerctl.t]) of the functions that call it. *)

From Stdlib Require Import ZArith List String Ascii Bool Lia.
From Stdlib Require Import DecimalString.
Import ListNotations.

Local Open Scope Z_scope.

(** ** Python primitives *)

Module Py.

Definition str := list ascii.

(** String literals of the script. *)
Definition lit (s : string) : str := list_ascii_of_string s.

Definition len {A} (l : list A) : Z := Z.of_nat (List.length l).

(** [" " * k]: no character at all when [k <= 0]. *)
Definition mul (c : ascii) (k : Z) : str := repeat c (Z.to_nat k).

(** How CPython adjusts one bound of a slice of a sequence of length [n]:
    a negative bound counts from the end, and everything is clipped to
    [0..n]. *)
Definition adjust (n i : Z) : Z :=
  if i <? 0 then Z.max 0 (i + n) else Z.min i n.

(** [l[start:stop]] *)
Definition slice {A} (l : list A) (start stop : Z) : list A :=
  let a := adjust (len l) start in
  let b := adjust (len l) stop in
  firstn (Z.to_nat (b - a)) (skipn (Z.to_nat a) l).

(** [l[:stop]] *)
Definition slice_to {A} (l : list A) (stop : Z) : list A := slice l 0 stop.

(** [x in l] for a list of strings. *)
Definition str_eqb (a b : str) : bool :=
  if list_eq_dec ascii_dec a b then true else false.

Definition contains (x : str) (l : list str) : bool := existsb (str_eqb x) l.

(** [l.remove(x)] for a list of strings: drops the first occurrence.
    [None] stands for the [ValueError] raised when there is none. *)
Fixpoint remove (x : str) (l : list str) : option (list str) :=
  match l with
  | [] => None
  | y :: l' =>
      if str_eqb y x then Some l'
      else option_map (cons y) (remove x l')
  end.

(** [s.split(sep)] for a one-character separator: always at least one
    field. *)
Fixpoint split (sep : ascii) (s : str) : list str :=
  match s with
  | [] => [[]]
  | c :: s' =>
      if Ascii.eqb c sep then [] :: split sep s'
      else match split sep s' with
           | f :: fs => (c :: f) :: fs
           | [] => [[c]]
           end
  end.

(** [sep.join(l)] *)
Fixpoint join (sep : str) (l : list str) : str :=
  match l with
  | [] => []
  | [x] => x
  | x :: l' => x ++ sep ++ join sep l'
  end.

(** [l[-1]] on a list of strings ([[]] where Python raises; [split] never
    returns an empty list). *)
Definition last_field (l : list str) : str := last l [].

End Py.

Import Py.

(** ** class Config *)

Module Config.

(** The fields the modelled functions read.  The colour and the icon
    tables only feed the polybar markup, which is not modelled. *)
Record t := {
  scrolling_msg_len : Z;
  english_text_only : bool;
  default_text : str;
  error_text : str
}.

(** The values written in the class body. *)
Definition default : t := {|
  scrolling_msg_len := 15;
  english_text_only := false;
  default_text := lit "default text";
  error_text := lit "error text"
|}.

End Config.

(** ** class Utils *)

Module Utils.

Definition center_text (text_to_center : str) (msg_display_len : Z) : str :=
  if len text_to_center >=? msg_display_len
  then slice_to text_to_center msg_display_len
  else
    let left_padding :=
      mul " " ((msg_display_len - len text_to_center) / 2) in
    let right_padding :=
      mul " " (msg_display_len - (len left_padding + len text_to_center) - 1) in
    left_padding ++ text_to_center ++ right_padding.

(** [encode("utf-8").decode("ascii")] succeeds exactly when every
    character is below 128. *)
Definition is_english (text_to_check : str) : bool :=
  forallb (fun c => (nat_of_ascii c <? 128)%nat) text_to_check.

(** [re.sub(r"%20", " ", s)]: the pattern is a literal, matches are taken
    left to right and do not overlap. *)
Fixpoint re_sub_pct20 (s : str) : str :=
  match s with
  | [] => []
  | c :: s' =>
      match s' with
      | c1 :: c2 :: s'' =>
          if (Ascii.eqb c "%" && Ascii.eqb c1 "2" && Ascii.eqb c2 "0")%bool
          then " "%char :: re_sub_pct20 s''
          else c :: re_sub_pct20 s'
      | _ => c :: re_sub_pct20 s'
      end
  end.

Definition clean_track_title (title_to_clean : str) : str :=
  re_sub_pct20 (last_field (split "/" title_to_clean)).

End Utils.

(** ** Exceptions

    Functions that can raise return a [result].  [OutOfFuel] is not a Python
    exception: it is what the model of a loop answers when its iteration
    budget is used up, and it is shown below never to happen. *)

Inductive exn := ValueError | IndexError | OutOfFuel.

Inductive result (A : Type) : Type :=
| Ok (a : A)
| Raise (e : exn).

Arguments Ok {A} a.
Arguments Raise {A} e.

Definition bind {A B} (m : result A) (k : A -> result B) : result B :=
  match m with
  | Ok a => k a
  | Raise e => Raise e
  end.

Notation "x <- m ;; k" := (bind m (fun x => k))
  (at level 61, m at next level, right associativity).

(** [l[i]] with Python's negative indices. *)
Definition getitem {A} (l : list A) (i : Z) : result A :=
  let j := if i <? 0 then i + len l else i in
  if (j <? 0) || (j >=? len l) then Raise IndexError
  else match nth_error l (Z.to_nat j) with
       | Some x => Ok x
       | None => Raise IndexError
       end.

(** ** The outside world: playerctl

    A world answers every invocation: [playerctl] exits with status 0 and
    prints something.  An invocation that fails makes [check_output] raise
    [CalledProcessError] in the script; that is not modelled, and the
    statements below are about worlds that answer. *)

Module Playerctl.

Record t := {
  (** the list [Player.get_available_players()] returns, i.e. the parsed
      output of [playerctl -l] *)
  available_players : list str;
  (** the decoded and right-stripped output of [playerctl -p name status] *)
  status : str -> str;
  (** the decoded output of [playerctl -p name metadata --format ...] *)
  metadata_output : str -> str
}.

End Playerctl.

(** ** class Player *)

Module Player.

Record t := {
  oid : nat;
  player_name : str;
  config : Config.t;
  display_text : str;
  display_text_start_index : Z
}.

(** [Player(player_name, config)], built at identity [o]. *)
Definition init (o : nat) (name : str) (cfg : Config.t) : t := {|
  oid := o;
  player_name := name;
  config := cfg;
  display_text := [];
  display_text_start_index := 0
|}.

(** [a == b]: the class defines no [__eq__], so this is [a is b]. *)
Definition same (a b : t) : bool := Nat.eqb (oid a) (oid b).

Definition get_available_players (w : Playerctl.t) : list str :=
  Playerctl.available_players w.

Definition is_playing (w : Playerctl.t) (self : t) : bool :=
  str_eqb (Playerctl.status w (player_name self)) (lit "Playing").

Definition is_stopped (w : Playerctl.t) (self : t) : bool :=
  str_eqb (Playerctl.status w (player_name self)) (lit "Stopped").

Definition exists_ (w : Playerctl.t) (self : t) : bool :=
  contains (player_name self) (get_available_players w).

(** The body of [metadata] once the record has been read and split.
    [title, *artists, vlc_title = metadata] takes the first field, the last
    field and what lies between.  The test [artists != ""] compares a list
    with a string and is always true, so [artists] is kept.  The
    empty-list case of the match is not reachable: it is below the length
    test. *)
Definition interpret (cfg : Config.t) (metadata : list str) : str :=
  if len metadata <? 3
  then Utils.center_text (Config.error_text cfg) (Config.scrolling_msg_len cfg)
  else
    match metadata with
    | [] => Utils.center_text (Config.error_text cfg) (Config.scrolling_msg_len cfg)
    | title :: rest =>
        let artists := removelast rest in
        let vlc_title := last rest [] in
        let title := if negb (str_eqb title []) then title else vlc_title in
        let title :=
          if Config.english_text_only cfg
          then (if Utils.is_english title then title else Config.error_text cfg)
          else title in
        let artists :=
          if Config.english_text_only cfg
          then map (fun artist =>
                      if Utils.is_english artist then artist
                      else Config.error_text cfg) artists
          else artists in
        let artists_str := join (lit ",") artists in
        title ++ lit " - " ++ artists_str
    end.

Definition metadata (w : Playerctl.t) (self : t) : str :=
  if negb (exists_ w self) then []
  else interpret (config self)
         (split "," (Playerctl.metadata_output w (player_name self))).

End Player.

(** ** class PolyPlay *)

Module PolyPlay.

(** [fresh] is not an attribute of the Python object: it is the next
    unused object identity, the model of allocation. *)
Record t := {
  config : Config.t;
  player_list : list Player.t;
  display_index : Z;
  fresh : nat
}.

(** [PolyPlay()]. *)
Definition init : t := {|
  config := Config.default;
  player_list := [];
  display_index := 0;
  fresh := 0
|}.

Definition set_player_list (self : t) (l : list Player.t) : t :=
  {| config := config self; player_list := l;
     display_index := display_index self; fresh := fresh self |}.

Definition set_display_index (self : t) (i : Z) : t :=
  {| config := config self; player_list := player_list self;
     display_index := i; fresh := fresh self |}.

(** *** _update_scrolling_text

    The player is mutated in place; the model returns it next to the
    string. *)
Definition _update_scrolling_text (w : Playerctl.t) (self : t)
    (player : Player.t) : Player.t * str :=
  let msg_len := Config.scrolling_msg_len (config self) in
  if negb (Player.is_playing w player) then
    let player :=
      if str_eqb (Player.display_text player) []
      then {| Player.oid := Player.oid player;
              Player.player_name := Player.player_name player;
              Player.config := Player.config player;
              Player.display_text :=
                Utils.center_text (Player.metadata w player) msg_len;
              Player.display_text_start_index :=
                Player.display_text_start_index player |}
      else player in
    (player, Player.display_text player)
  else
    let full_media_text := Player.metadata w player in
    let spacing := mul " " 2 in
    let full_media_text := full_media_text ++ spacing in
    let trunc_start := Player.display_text_start_index player in
    let trunc_end := trunc_start + msg_len in
    let scrolling_text := slice full_media_text trunc_start trunc_end in
    let padding_needed := len scrolling_text <? msg_len in
    let padding_text :=
      if padding_needed
      then slice_to full_media_text
             ((Player.display_text_start_index player + msg_len)
              mod len full_media_text)
      else [] in
    let scrolling_text := scrolling_text ++ padding_text in
    ({| Player.oid := Player.oid player;
        Player.player_name := Player.player_name player;
        Player.config := Player.config player;
        Player.display_text := scrolling_text;
        Player.display_text_start_index :=
          (Player.display_text_start_index player + 1)
          mod len full_media_text |},
     scrolling_text).

(** *** _update_player_list *)

(** [self.player_list.remove(existing_player)]: drops the first entry that
    is the same object. *)
Fixpoint remove_player (x : Player.t) (l : list Player.t)
    : result (list Player.t) :=
  match l with
  | [] => Raise ValueError
  | y :: l' =>
      if Player.same y x then Ok l'
      else l'' <- remove_player x l' ;; Ok (y :: l'')
  end.

Definition remove_name (x : str) (l : list str) : result (list str) :=
  match Py.remove x l with
  | Some l' => Ok l'
  | None => Raise ValueError
  end.

(** The first loop, [for existing_player in self.player_list], whose body
    removes entries from the very list it walks.  A list iterator is an
    index [i] into the list object: each round it stops if [i] is no longer
    below the current length, and otherwise hands out entry [i] and moves
    to [i + 1].  [fuel] bounds the number of rounds. *)
Fixpoint prune (fuel : nat) (i : nat) (player_list : list Player.t)
    (new_list : list str) : result (list Player.t * list str) :=
  match nth_error player_list i with
  | None => Ok (player_list, new_list)
  | Some existing_player =>
      match fuel with
      | O => Raise OutOfFuel
      | S fuel' =>
          let name := Player.player_name existing_player in
          player_list' <-
            (if negb (contains name new_list)
             then remove_player existing_player player_list
             else Ok player_list) ;;
          new_list' <-
            (if contains name new_list
             then remove_name name new_list
             else Ok new_list) ;;
          prune fuel' (S i) player_list' new_list'
      end
  end.

(** One round of the second loop, [for player in new_list]. *)
Definition discover (w : Playerctl.t) (self : t) (player : str) : t :=
  let new_player := Player.init (fresh self) player (config self) in
  let self := {| config := config self; player_list := player_list self;
                 display_index := display_index self;
                 fresh := S (fresh self) |} in
  if Player.is_stopped w new_player then self
  else set_player_list self (player_list self ++ [new_player]).

Definition _update_player_list (w : Playerctl.t) (self : t) : result t :=
  let new_list := Player.get_available_players w in
  if negb (len new_list =? len (player_list self)) then
    r <- prune (List.length (player_list self)) 0 (player_list self) new_list ;;
    let self := set_player_list self (fst r) in
    let new_list := snd r in
    if len new_list >? 0
    then Ok (fold_left (discover w) new_list self)
    else Ok self
  else Ok self.

(** *** _select_player_to_display

    Returns the object after the assignments to [display_index], and the
    value returned ([None] is Python's [None]). *)
Definition _select_player_to_display (self : t)
    : result (t * option Player.t) :=
  if len (player_list self) <? 1 then
    Ok (set_display_index self 0, None)
  else if len (player_list self) =? 1 then
    let self := set_display_index self 0 in
    p <- getitem (player_list self) (display_index self) ;;
    Ok (self, Some p)
  else
    let self :=
      if display_index self >=? len (player_list self) - 1
      then set_display_index self
             (display_index self mod len (player_list self))
      else self in
    let self :=
      if display_index self <? 0
      then set_display_index self (len (player_list self) - 1)
      else self in
    p <- getitem (player_list self) (display_index self) ;;
    Ok (self, Some p).

Definition cycle_player (self : t) : t :=
  if len (player_list self) <=? 1 then set_display_index self 0
  else set_display_index self (display_index self + 1).

Definition reverse_cycle_player (self : t) : t :=
  if len (player_list self) <=? 1 then set_display_index self 0
  else set_display_index self (display_index self - 1).

End PolyPlay.

(** ** Histories

    What happens to a [PolyPlay] object between two selections: the two
    signal handlers, the reconciliation of the main loop against whatever
    world it then finds, and earlier selections. *)

Module History.

Inductive event :=
| CycleForward
| CycleBackward
| Reconcile (w : Playerctl.t)
| Select.

Definition step (self : PolyPlay.t) (e : event) : PolyPlay.t :=
  match e with
  | CycleForward => PolyPlay.cycle_player self
  | CycleBackward => PolyPlay.reverse_cycle_player self
  | Reconcile w =>
      match PolyPlay._update_player_list w self with
      | Ok self' => self'
      | Raise _ => self
      end
  | Select =>
      match PolyPlay._select_player_to_display self with
      | Ok (self', _) => self'
      | Raise _ => self
      end
  end.

Definition run (self : PolyPlay.t) (events : list event) : PolyPlay.t :=
  fold_left step events self.

(** The position [_select_player_to_display] settles on, for a registry of
    [n >= 1] players and the index [i] it finds. *)
Definition settled (n i : Z) : Z := if i <? 0 then n - 1 else i mod n.

End History.

(** ** Substrings

    Vocabulary of the statements about [Player.metadata]: [has_infix pat s]
    tells whether [pat] occurs in [s]. *)

Fixpoint starts_with (pat s : str) : bool :=
  match pat, s with
  | [], _ => true
  | _ :: _, [] => false
  | p :: pat', c :: s' => Ascii.eqb p c && starts_with pat' s'
  end.

Fixpoint has_infix (pat s : str) : bool :=
  starts_with pat s
  || match s with
     | [] => false
     | _ :: s' => has_infix pat s'
     end.

(** ** Discovery

    Vocabulary of the statements about reconciliation.  First, whether a
    freshly built [Player] of that name answers [is_stopped]. *)

Definition stopped_on_discovery (w : Playerctl.t) (name : str) : bool :=
  str_eqb (Playerctl.status w name) (lit "Stopped").

(** Whether a tracked player's name is in a list of live names. *)
Definition in_snapshot (new_list : list str) (p : Player.t) : bool :=
  contains (Player.player_name p) new_list.

(** ** Concrete inputs used by the examples below *)

Module Sample.

Definition player (o : nat) (name : string) : Player.t :=
  Player.init o (lit name) Config.default.

Definition polyplay (l : list Player.t) (i : Z) : PolyPlay.t :=
  {| PolyPlay.config := Config.default;
     PolyPlay.player_list := l;
     PolyPlay.display_index := i;
     PolyPlay.fresh := 10 |}.

(** A world where the players named in [names] are alive and playing, and
    [playerctl metadata] prints [record] for each of them. *)
Definition world (names : list string) (record : string) : Playerctl.t :=
  {| Playerctl.available_players := map lit names;
     Playerctl.status := fun _ => lit "Playing";
     Playerctl.metadata_output := fun _ => lit record |}.

Definition vlc : Player.t := player 0 "vlc".
Definition firefox : Player.t := player 1 "firefox".
Definition spotify : Player.t := player 2 "spotify".

End Sample.

(** ** The markup helpers of Utils and Player.icon

    The glyphs of [Config.control_icons] and [Config.player_icons] lie
    outside the character model, so the colour and the icon table are the
    parameters of a [Theme] instead of constants. *)

Module Markup.

(** [str(i)] for an [int], as an f-string prints it. *)
Definition format_int (i : Z) : str :=
  list_ascii_of_string (NilZero.string_of_int (Z.to_int i)).

(** [d.get(key, default)] for a dict written as its list of items. *)
Fixpoint dict_get {V} (d : list (str * V)) (key : str) (default : V) : V :=
  match d with
  | [] => default
  | (k, v) :: d' => if str_eqb k key then v else dict_get d' key default
  end.

Definition colorize_string (str_to_color color : str) : str :=
  lit "%{F" ++ color ++ lit "} " ++ str_to_color ++ lit " %{F-}".

Definition trigger_mapping : list (str * Z) :=
  [ (lit "left click", 1);
    (lit "middle click", 2);
    (lit "right click", 3);
    (lit "scroll up", 4);
    (lit "scroll down", 5);
    (lit "double left click", 6);
    (lit "double middle click", 7);
    (lit "double right click", 8) ].

Definition actionize_string (str_to_action command trigger : str) : str :=
  let action := dict_get trigger_mapping trigger 1 in
  lit "%{A" ++ format_int action ++ lit ":" ++ command ++ lit ":}"
  ++ str_to_action ++ lit "%{A}".

End Markup.

Module Theme.

(** [default_icon] is [player_icons["default"]], the entry the class body
    marks as not to be removed; [player_icons] holds the items of the
    dict. *)
Record t := {
  color : str;
  default_icon : str;
  player_icons : list (str * str)
}.

End Theme.

Module PlayerIcon.

(** [Player.icon].  [program is None] is never true of a string. *)
Definition icon (theme : Theme.t) (self : Player.t) : result str :=
  let program := hd [] (split "." (Player.player_name self)) in
  if len program <? 2 then Raise ValueError
  else Ok (Markup.colorize_string
             (Markup.dict_get (Theme.player_icons theme) program
                (Theme.default_icon theme))
             (Theme.color theme)).

End PlayerIcon.

(** ** Player.get_available_players, from the bytes playerctl prints

    [Player.get_available_players w] above stands for the list this function
    returns on the output of [playerctl -l]. *)

Module PlayerctlOutput.

Definition hexdigit (n : nat) : ascii :=
  nth n (list_ascii_of_string "0123456789abcdef") "0"%char.

Definition has_byte (c : ascii) (b : list ascii) : bool :=
  existsb (Ascii.eqb c) b.

Definition dquote : ascii := ascii_of_nat 34.

(** The quote [repr] puts around a bytes literal: a double quote when the
    bytes hold a single quote and no double quote. *)
Definition quote_of (b : list ascii) : ascii :=
  if has_byte "'" b && negb (has_byte dquote b) then dquote else "'"%char.

(** How [repr] prints one byte. *)
Definition repr_byte (quote c : ascii) : str :=
  let n := nat_of_ascii c in
  if Ascii.eqb c quote || Ascii.eqb c "\" then ["\"%char; c]
  else if Nat.eqb n 9 then lit "\t"
  else if Nat.eqb n 10 then lit "\n"
  else if Nat.eqb n 13 then lit "\r"
  else if (n <? 32)%nat || (127 <=? n)%nat
       then ["\"%char; "x"%char; hexdigit (n / 16); hexdigit (n mod 16)]
  else [c].

(** [str(b)] for a [bytes] object: its [repr]. *)
Definition bytes_repr (b : list ascii) : str :=
  let quote := quote_of b in
  "b"%char :: quote :: flat_map (repr_byte quote) b ++ [quote].

(** [b.decode("utf-8")], for the texts the model can hold.  A byte below
    128 is the character of that code; a byte 0xC2 or 0xC3 followed by a
    continuation byte (0x80 to 0xBF) is one of the characters 128 to 255.
    [None] is every other input: bytes that are not UTF-8, on which the
    script raises [UnicodeDecodeError], and characters above 255, which the
    model cannot hold; nothing is stated below about those inputs. *)
Fixpoint decode (b : list ascii) : option str :=
  match b with
  | [] => Some []
  | c :: b' =>
      let n := nat_of_ascii c in
      if (n <? 128)%nat then option_map (cons c) (decode b')
      else
        match b' with
        | d :: b'' =>
            let m := nat_of_ascii d in
            if ((Nat.eqb n 194 || Nat.eqb n 195)
                && (128 <=? m) && (m <? 192))%nat
            then option_map
                   (cons (ascii_of_nat ((n - 192) * 64 + (m - 128))))
                   (decode b'')
            else None
        | [] => None
        end
  end.

(** The characters [str.rstrip()] strips, among those below 256. *)
Definition is_space (c : ascii) : bool :=
  let n := nat_of_ascii c in
  ((9 <=? n) && (n <=? 13) || (28 <=? n) && (n <=? 32)
   || Nat.eqb n 133 || Nat.eqb n 160)%nat.

Fixpoint lstrip (s : str) : str :=
  match s with
  | c :: s' => if is_space c then lstrip s' else s
  | [] => []
  end.

Definition rstrip (s : str) : str := rev (lstrip (rev s)).

Definition newline : ascii := ascii_of_nat 10.

Definition get_available_players (players_bytes : list ascii)
    : option (list str) :=
  if has_infix (lit "No players found") (bytes_repr players_bytes)
     || (len (bytes_repr players_bytes) <=? 3)
  then Some []
  else option_map (fun text => split newline (rstrip text))
         (decode players_bytes).

End PlayerctlOutput.

(** ** Vocabulary of the further properties *)

(** What [playerctl] prints for the format of [Player.metadata],
    ['{{title}},{{artist}},{{xesam:url}}], on a track with these three
    values: the format starts with a quote, which is printed as it is, and
    the output ends with a newline. *)
Definition metadata_record (title artist url : str) : str :=
  "'"%char :: title ++ ","%char :: artist ++ ","%char :: url
  ++ [PlayerctlOutput.newline].

(** A text whose last character is not white space. *)
Definition ends_with_text (s : str) : Prop :=
  exists t c, s = t ++ [c] /\ PlayerctlOutput.is_space c = false.

(** What [playerctl -l] prints for a list of names: one name per line. *)
Definition lines (names : list str) : list ascii :=
  join [PlayerctlOutput.newline] names ++ [PlayerctlOutput.newline].

(** No occurrence of the separator in a text. *)
Definition sep_free (sep : ascii) (s : str) : Prop := ~ In sep s.

(** The position a selection settles on: 0 for an empty registry. *)
Definition selected_position (self : PolyPlay.t) : Z :=
  if len (PolyPlay.player_list self) <? 1 then 0
  else History.settled (len (PolyPlay.player_list self))
         (PolyPlay.display_index self).

(** The text that scrolls: the metadata and the two spaces after it. *)
Definition full_media_text (w : Playerctl.t) (player : Player.t) : str :=
  Player.metadata w player ++ mul " " 2.

(** [k] consecutive scroll updates of one player in an unchanging world. *)
Fixpoint scroll_updates (k : nat) (w : Playerctl.t) (self : PolyPlay.t)
    (player : Player.t) : Player.t :=
  match k with
  | O => player
  | S k' =>
      scroll_updates k' w self
        (fst (PolyPlay._update_scrolling_text w self player))
  end.

(** [k] forward cycles. *)
Fixpoint cycle_forward (k : nat) (self : PolyPlay.t) : PolyPlay.t :=
  match k with
  | O => self
  | S k' => cycle_forward k' (PolyPlay.cycle_player self)
  end.

(** [Subseq l l']: [l] is [l'] with some entries left out, the others in
    their order. *)
Inductive Subseq {A} : list A -> list A -> Prop :=
| Subseq_nil : Subseq [] []
| Subseq_skip x l l' : Subseq l l' -> Subseq l (x :: l')
| Subseq_keep x l l' : Subseq l l' -> Subseq (x :: l) (x :: l').

(** A [Player] as the constructor leaves it. *)
Definition newly_built (cfg : Config.t) (p : Player.t) : Prop :=
  Player.config p = cfg
  /\ Player.display_text p = []
  /\ Player.display_text_start_index p = 0.

(** * Properties *)

(** ** Facts about the Python primitives *)

Section PyFacts.

Context {A : Type}.
Implicit Types l : list A.

Lemma len_nonneg l : 0 <= len l.
Proof. unfold len. lia. Qed.

Lemma len_app l l' : len (l ++ l') = len l + len l'.
Proof. unfold len. rewrite length_app. lia. Qed.

Lemma adjust_range n i : 0 <= n -> 0 <= adjust n i <= n.
Proof.
  intros Hn. unfold adjust.
  destruct (i <? 0) eqn:E; [apply Z.ltb_lt in E | apply Z.ltb_ge in E]; lia.
Qed.

(** The length of a slice is the distance between its adjusted bounds. *)
Lemma len_slice l a b :
  len (slice l a b) = Z.max 0 (adjust (len l) b - adjust (len l) a).
Proof.
  unfold slice.
  pose proof (adjust_range (len l) a (len_nonneg l)) as Ha.
  pose proof (adjust_range (len l) b (len_nonneg l)) as Hb.
  unfold len in *. rewrite length_firstn, length_skipn. lia.
Qed.

Lemma slice_to_firstn l k :
  0 <= k <= len l -> slice_to l k = firstn (Z.to_nat k) l.
Proof.
  intros Hk. unfold slice_to, slice, adjust.
  replace (0 <? 0) with false by reflexivity.
  assert (E : (k <? 0) = false) by (apply Z.ltb_ge; lia). rewrite E.
  rewrite Z.min_l by lia. rewrite Z.min_l by lia.
  simpl. f_equal. lia.
Qed.

End PyFacts.

Lemma len_mul c k : len (mul c k) = Z.max 0 k.
Proof. unfold len, mul. rewrite repeat_length. lia. Qed.

(** ** Utils.center_text *)

(** The shape of the padded result. *)
Lemma center_text_padded text target :
  len text < target ->
  Utils.center_text text target
  = mul " " ((target - len text) / 2) ++ text
    ++ mul " " (target - len text - (target - len text) / 2 - 1).
Proof.
  intros Hlt. unfold Utils.center_text.
  assert (E : (len text >=? target) = false) by (rewrite Z.geb_leb; apply Z.leb_gt; lia).
  rewrite E. cbv zeta. rewrite len_mul.
  assert (0 <= (target - len text) / 2) by (apply Z.div_pos; lia).
  do 3 f_equal. lia.
Qed.

(** C4, as amended: centering ["abc"] into width 7 puts 2 spaces before it
    and 1 space after it, which makes 6 characters, not 7. *)
Theorem center_abc_7 :
  Utils.center_text (lit "abc") 7 = mul " " 2 ++ lit "abc" ++ mul " " 1
  /\ Utils.center_text (lit "abc") 7 = lit "  abc "
  /\ len (Utils.center_text (lit "abc") 7) = 6.
Proof. repeat split. Qed.

(** C4, as stated, fails: the result of centering ["abc"] into width 7 is
    not 7 characters long. *)
Lemma center_abc_7_not_7_chars :
  ~ (len (Utils.center_text (lit "abc") 7) = 7
     /\ Utils.center_text (lit "abc") 7 = mul " " 2 ++ lit "abc" ++ mul " " 1).
Proof. intros [H _]. vm_compute in H. discriminate H. Qed.

(** C10: a text strictly shorter than the target comes back [target - 1]
    characters long, never [target]; a text at least as long as the target
    (a width, so not negative) comes back cut to its first [target]
    characters. *)
Theorem center_text_length text target :
  (len text < target ->
     len (Utils.center_text text target) = target - 1
     /\ len (Utils.center_text text target) <> target)
  /\ (0 <= target <= len text ->
     Utils.center_text text target = firstn (Z.to_nat target) text).
Proof.
  split.
  - intros Hlt.
    assert (Hlen : len (Utils.center_text text target) = target - 1).
    { rewrite center_text_padded by exact Hlt.
      rewrite !len_app, !len_mul.
      pose proof (len_nonneg text) as Hn.
      pose proof (Z.div_mod (target - len text) 2 ltac:(lia)) as Hdm.
      pose proof (Z.mod_pos_bound (target - len text) 2 ltac:(lia)) as Hm.
      lia. }
    split; [exact Hlen | lia].
  - intros Hge. unfold Utils.center_text.
    assert (E : (len text >=? target) = true) by (rewrite Z.geb_leb; apply Z.leb_le; lia).
    rewrite E. apply slice_to_firstn. exact Hge.
Qed.

Lemma center_text_length_witness :
  len (lit "abc") < 7
  /\ len (Utils.center_text (lit "abc") 7) = 7 - 1
  /\ 0 <= 2 <= len (lit "abc")
  /\ Utils.center_text (lit "abc") 2 = firstn (Z.to_nat 2) (lit "abc").
Proof.
  split; [reflexivity |].
  split; [apply (proj1 (center_text_length (lit "abc") 7)); reflexivity |].
  split; [vm_compute; split; discriminate |].
  apply (proj2 (center_text_length (lit "abc") 2)).
  vm_compute; split; discriminate.
Defined.

(** Outside the domain of widths: a negative target makes the slice drop
    characters from the end. *)
Remark center_text_negative_target :
  Utils.center_text (lit "abc") (-1) = lit "ab".
Proof. reflexivity. Qed.

(** ** PolyPlay._update_scrolling_text *)

Section Scrolling.

Variable w : Playerctl.t.
Variable self : PolyPlay.t.
Variable player : Player.t.

Let msg_len := Config.scrolling_msg_len (PolyPlay.config self).
Let n := len (Player.metadata w player) + 2.
Let start := Player.display_text_start_index player.

(** When the text with its separator is at least as long as the window and
    the offset lies inside it, the window is filled exactly. *)
Lemma scrolling_text_fills_window :
  Player.is_playing w player = true ->
  0 <= start < n ->
  0 <= msg_len <= n ->
  len (snd (PolyPlay._update_scrolling_text w self player)) = msg_len.
Proof.
  intros Hplay Hs Hw. unfold PolyPlay._update_scrolling_text.
  rewrite Hplay. cbn [negb snd].
  set (full := Player.metadata w player ++ mul " " 2).
  assert (Hn : len full = n).
  { unfold full, n. rewrite len_app, len_mul. lia. }
  fold msg_len start.
  rewrite len_app, len_slice, Hn.
  assert (Has : adjust n start = start).
  { unfold adjust. destruct (Z.ltb_spec start 0); lia. }
  assert (Hae : adjust n (start + msg_len) = Z.min (start + msg_len) n).
  { unfold adjust. destruct (Z.ltb_spec (start + msg_len) 0); lia. }
  rewrite Has, Hae.
  destruct (Z.ltb_spec (Z.max 0 (Z.min (start + msg_len) n - start)) msg_len)
    as [Hpad | Hnopad].
  - assert (Hm : (start + msg_len) mod n = start + msg_len - n).
    { symmetry. apply Z.mod_unique_pos with (q := 1); lia. }
    unfold slice_to. rewrite len_slice, Hn, Hm.
    unfold adjust.
    destruct (Z.ltb_spec (start + msg_len - n) 0); [lia |].
    replace (0 <? 0) with false by reflexivity. lia.
  - change (len (@nil ascii)) with 0. lia.
Qed.

End Scrolling.

(** C2 at a short text: the player is playing, its text is ["a - b"], the
    window is 15 wide and the offset is 0; the update returns the 8
    characters ["a - b  a"]. *)
Theorem scrolling_short_text_underfills :
  let w := Sample.world ["vlc"%string] "a,b,c" in
  let out := snd (PolyPlay._update_scrolling_text w PolyPlay.init Sample.vlc) in
  Player.is_playing w Sample.vlc = true
  /\ Player.metadata w Sample.vlc = lit "a - b"
  /\ Player.display_text_start_index Sample.vlc = 0
  /\ Config.scrolling_msg_len (PolyPlay.config PolyPlay.init) = 15
  /\ out = lit "a - b  a"
  /\ len out = 8.
Proof. vm_compute. repeat split. Qed.

(** ** PolyPlay._select_player_to_display *)

Lemma getitem_in_range {A} (l : list A) (i : Z) :
  0 <= i < len l ->
  exists x, getitem l i = Ok x /\ nth_error l (Z.to_nat i) = Some x.
Proof.
  intros Hi. unfold getitem. cbv zeta.
  assert (E0 : (i <? 0) = false) by (apply Z.ltb_ge; lia).
  assert (E1 : (i >=? len l) = false) by (rewrite Z.geb_leb; apply Z.leb_gt; lia).
  rewrite !E0, E1. cbn [orb].
  destruct (nth_error l (Z.to_nat i)) as [x |] eqn:E.
  - exists x. split; reflexivity.
  - apply nth_error_None in E. unfold len in Hi. lia.
Qed.

Lemma settled_range n i : 1 <= n -> 0 <= History.settled n i < n.
Proof.
  intros Hn. unfold History.settled.
  destruct (Z.ltb_spec i 0); [lia |].
  apply Z.mod_pos_bound. lia.
Qed.

(** The last two lines of the function, once the index has been settled. *)
Lemma select_return cfg (l : list Player.t) fr (i pos : Z) :
  l <> [] ->
  pos = History.settled (len l) i ->
  let self := {| PolyPlay.config := cfg; PolyPlay.player_list := l;
                 PolyPlay.display_index := pos; PolyPlay.fresh := fr |} in
  exists self' r,
    (p <- getitem l pos ;; Ok (self, Some p)) = Ok (self', r)
    /\ PolyPlay.player_list self' = l
    /\ (r = None <-> l = [])
    /\ (forall p, r = Some p ->
          0 <= History.settled (len l) i < len l
          /\ PolyPlay.display_index self' = History.settled (len l) i
          /\ nth_error l (Z.to_nat (History.settled (len l) i)) = Some p).
Proof.
  intros Hne -> self.
  assert (Hn : 1 <= len l).
  { destruct l; [contradiction | unfold len; simpl; lia]. }
  pose proof (settled_range (len l) i Hn) as Hrange.
  destruct (getitem_in_range l _ Hrange) as (x & Hget & Hnth).
  rewrite Hget. cbn [bind].
  exists self, (Some x). split; [reflexivity |]. split; [reflexivity |].
  split; [split; [discriminate | contradiction] |].
  intros p [= <-]. repeat split; try lia. exact Hnth.
Qed.

(** Reduces the field reads of an updated [PolyPlay] record. *)
Ltac simpl_self :=
  unfold PolyPlay.set_display_index, PolyPlay.set_player_list;
  cbn [PolyPlay.player_list PolyPlay.display_index PolyPlay.config
       PolyPlay.fresh].

(** What a selection does, from any state whatsoever. *)
Lemma select_from_any_state (self : PolyPlay.t) :
  let l := PolyPlay.player_list self in
  exists self' r,
    PolyPlay._select_player_to_display self = Ok (self', r)
    /\ PolyPlay.player_list self' = l
    /\ (r = None <-> l = [])
    /\ (forall p, r = Some p ->
          let pos := History.settled (len l) (PolyPlay.display_index self) in
          0 <= pos < len l
          /\ PolyPlay.display_index self' = pos
          /\ nth_error l (Z.to_nat pos) = Some p).
Proof.
  destruct self as [cfg l i fr].
  unfold PolyPlay._select_player_to_display.
  cbv zeta. simpl_self.
  pose proof (len_nonneg l) as Hl.
  destruct (Z.ltb_spec (len l) 1) as [H0 | H1].
  - (* no player *)
    assert (l = []) by (destruct l; [reflexivity | unfold len in H0; simpl in H0; lia]).
    subst l. eexists _, None. repeat split; try reflexivity; try discriminate.
  - assert (Hne : l <> []) by (intros ->; unfold len in H1; simpl in H1; lia).
    destruct (Z.eqb_spec (len l) 1) as [E1 | Hmany].
    + (* exactly one player *)
      apply select_return; [exact Hne |].
      unfold History.settled. rewrite E1.
      destruct (i <? 0); [reflexivity | symmetry; apply Z.mod_1_r].
    + (* several players *)
      destruct (Z.geb_spec i (len l - 1)) as [Hhi | Hlo]; simpl_self.
      * pose proof (Z.mod_pos_bound i (len l) ltac:(lia)) as Hm.
        destruct (Z.ltb_spec (i mod len l) 0) as [Hneg | _]; [lia |].
        simpl_self.
        apply select_return; [exact Hne |].
        unfold History.settled. destruct (Z.ltb_spec i 0); [lia | reflexivity].
      * destruct (Z.ltb_spec i 0) as [Hneg | Hpos]; simpl_self;
          (apply select_return; [exact Hne |]); unfold History.settled.
        -- destruct (Z.ltb_spec i 0); [reflexivity | lia].
        -- destruct (Z.ltb_spec i 0); [lia |]. symmetry. apply Z.mod_small. lia.
Qed.

(** C3, as amended: after any history of cycling, reconciliation and earlier
    selections, a selection returns [None] exactly when the registry is
    empty, and otherwise the player at an in-range position: [index mod len]
    for an index that is not negative, [len - 1] for a negative one. *)
Theorem select_after_any_history (start : PolyPlay.t)
    (events : list History.event) :
  let self := History.run start events in
  let l := PolyPlay.player_list self in
  let i := PolyPlay.display_index self in
  exists self' r,
    PolyPlay._select_player_to_display self = Ok (self', r)
    /\ (r = None <-> l = [])
    /\ (forall p, r = Some p ->
          let pos := if i <? 0 then len l - 1 else i mod len l in
          0 <= pos < len l
          /\ PolyPlay.display_index self' = pos
          /\ nth_error l (Z.to_nat pos) = Some p).
Proof.
  cbv zeta.
  destruct (select_from_any_state (History.run start events))
    as (self' & r & Hsel & _ & Hnone & Hsome).
  exists self', r. split; [exact Hsel |]. split; [exact Hnone |].
  intros p Hp. exact (Hsome p Hp).
Qed.

Lemma select_after_any_history_witness :
  exists self' r,
    PolyPlay._select_player_to_display
      (History.run
         (Sample.polyplay [Sample.vlc; Sample.firefox; Sample.spotify] 0)
         [History.CycleForward; History.CycleForward; History.CycleForward;
          History.CycleForward]) = Ok (self', r)
    /\ r = Some Sample.firefox.
Proof.
  destruct (select_after_any_history
              (Sample.polyplay [Sample.vlc; Sample.firefox; Sample.spotify] 0)
              [History.CycleForward; History.CycleForward;
               History.CycleForward; History.CycleForward])
    as (self' & r & Hsel & _ & _).
  exists self', r. split; [exact Hsel |].
  vm_compute in Hsel. injection Hsel as _ Hr. symmetry. exact Hr.
Defined.

(** C3, as stated, fails on a negative index: two backward cycles on three
    players leave the index at -2; the selection returns the third player,
    while position [-2 mod 3 = 1] holds the second. *)
Lemma select_negative_index_not_modulo :
  let self :=
    History.run
      (Sample.polyplay [Sample.vlc; Sample.firefox; Sample.spotify] 0)
      [History.CycleBackward; History.CycleBackward] in
  PolyPlay.display_index self = -2
  /\ ~ (forall self' p,
          PolyPlay._select_player_to_display self = Ok (self', Some p) ->
          getitem (PolyPlay.player_list self)
            (PolyPlay.display_index self mod len (PolyPlay.player_list self))
          = Ok p).
Proof.
  cbv zeta. split; [reflexivity |].
  intros H. specialize (H _ _ eq_refl). vm_compute in H. discriminate H.
Qed.

(** ** Player.metadata *)

Lemma starts_with_app pat rest : starts_with pat (pat ++ rest) = true.
Proof.
  induction pat as [| p pat IH]; [reflexivity |].
  simpl. rewrite Ascii.eqb_refl. exact IH.
Qed.

Lemma has_infix_app before pat rest :
  has_infix pat (before ++ pat ++ rest) = true.
Proof.
  assert (Hstep : forall s,
            has_infix pat s
            = starts_with pat s
              || match s with [] => false | _ :: s' => has_infix pat s' end)
    by (intros [| c s]; reflexivity).
  induction before as [| c before IH].
  - cbn [app]. rewrite Hstep, starts_with_app. reflexivity.
  - cbn [app]. rewrite Hstep, IH. apply orb_true_r.
Qed.

Section Interpret.

Variable cfg : Config.t.

Let placeholder :=
  Utils.center_text (Config.error_text cfg) (Config.scrolling_msg_len cfg).

(** Fewer than 3 fields: the centered error text, whatever the
    configuration. *)
Lemma interpret_malformed fields :
  len fields < 3 -> Player.interpret cfg fields = placeholder.
Proof.
  intros H. unfold Player.interpret.
  destruct (Z.ltb_spec (len fields) 3); [reflexivity | lia].
Qed.

(** At least 3 fields: a title, [" - "], the artists. *)
Lemma interpret_wellformed fields :
  3 <= len fields ->
  exists title artists_str,
    Player.interpret cfg fields = title ++ lit " - " ++ artists_str.
Proof.
  intros H. unfold Player.interpret.
  destruct (Z.ltb_spec (len fields) 3); [lia |].
  destruct fields as [| title rest]; [unfold len in H; simpl in H; lia |].
  eexists _, _. reflexivity.
Qed.

(** An empty title is replaced by the last field as it stands. *)
Lemma interpret_empty_title rest :
  3 <= len ([] :: rest) ->
  Config.english_text_only cfg = false ->
  Player.interpret cfg ([] :: rest)
  = last rest [] ++ lit " - " ++ join (lit ",") (removelast rest).
Proof.
  intros H Heng. unfold Player.interpret.
  match goal with
  | |- context [?n <? 3] =>
      destruct (Z.ltb_spec n 3); [unfold len, str in *; lia |]
  end.
  rewrite Heng. reflexivity.
Qed.

Lemma interpret_placeholder_iff fields :
  has_infix (lit " - ") placeholder = false ->
  (Player.interpret cfg fields = placeholder <-> len fields < 3).
Proof.
  intros Hsep. split.
  - intros Heq. destruct (Z.lt_ge_cases (len fields) 3) as [Hlt | Hge];
      [exact Hlt |].
    destruct (interpret_wellformed fields Hge) as (t & a & Hshape).
    rewrite Heq in Hshape. rewrite Hshape, has_infix_app in Hsep.
    discriminate Hsep.
  - apply interpret_malformed.
Qed.

End Interpret.

Lemma metadata_of_existing w self :
  Player.exists_ w self = true ->
  Player.metadata w self
  = Player.interpret (Player.config self)
      (split "," (Playerctl.metadata_output w (Player.player_name self))).
Proof. intros H. unfold Player.metadata. rewrite H. reflexivity. Qed.

(** C7, as amended: for an existing player, whatever the configuration,
    a record with fewer than 3 comma-separated fields gives the centered
    error text; when the centered error text does not hold [" - "] (as with
    the error text of the script) nothing else gives it; the record
    ["Song Title,Artist One,file:///home/x/Song%20Title.mp3"] gives
    ["Song Title - Artist One"], and the record ["a,b"] gives the centered
    error text. *)
Theorem metadata_error_placeholder_configured w self :
  Player.exists_ w self = true ->
  let cfg := Player.config self in
  let placeholder :=
    Utils.center_text (Config.error_text cfg) (Config.scrolling_msg_len cfg) in
  let record := Playerctl.metadata_output w (Player.player_name self) in
  (len (split "," record) < 3 -> Player.metadata w self = placeholder)
  /\ (has_infix (lit " - ") placeholder = false ->
      (Player.metadata w self = placeholder <-> len (split "," record) < 3))
  /\ (record = lit "Song Title,Artist One,file:///home/x/Song%20Title.mp3" ->
      Player.metadata w self = lit "Song Title - Artist One")
  /\ (record = lit "a,b" -> Player.metadata w self = placeholder).
Proof.
  intros Hex. cbv zeta. rewrite (metadata_of_existing w self Hex).
  split; [apply interpret_malformed |].
  split; [intros Hsep; apply interpret_placeholder_iff; exact Hsep |].
  split; intros ->.
  - destruct (Player.config self) as [width strict dflt err].
    destruct strict; reflexivity.
  - apply interpret_malformed. reflexivity.
Qed.

Lemma metadata_error_placeholder_configured_witness :
  Player.metadata (Sample.world ["vlc"%string] "a,b") Sample.vlc
  = lit "  error text  "
  /\ (Player.metadata (Sample.world ["vlc"%string] "a,b") Sample.vlc
      = lit "  error text  "
      <-> len (split "," (lit "a,b")) < 3).
Proof.
  destruct (metadata_error_placeholder_configured
              (Sample.world ["vlc"%string] "a,b") Sample.vlc eq_refl)
    as (Hshort & Hiff & _ & _).
  split; [apply Hshort; reflexivity | apply Hiff; reflexivity].
Defined.

(** C7, as stated, fails for a configuration whose centered error text
    holds [" - "]: with the error text ["Error - no metadata"] and a window
    of 15, the record ["Error,no meta,file:///x.mp3"] has 3 fields and is
    shown as ["Error - no meta"], which is the centered error text. *)
Lemma metadata_placeholder_of_wellformed_record :
  let cfg := {| Config.scrolling_msg_len := 15;
                Config.english_text_only := false;
                Config.default_text := lit "default text";
                Config.error_text := lit "Error - no metadata" |} in
  let w := Sample.world ["vlc"%string] "Error,no meta,file:///x.mp3" in
  let self := Player.init 0 (lit "vlc") cfg in
  Player.exists_ w self = true
  /\ ~ (Player.metadata w self
        = Utils.center_text (Config.error_text cfg)
            (Config.scrolling_msg_len cfg)
        <-> len (split "," (Playerctl.metadata_output w
                              (Player.player_name self))) < 3).
Proof.
  cbv zeta. split; [reflexivity |].
  intros [H _]. specialize (H eq_refl). vm_compute in H. discriminate H.
Qed.

(** The side condition of [interpret_placeholder_iff] is about the
    configuration: with the error text ["a - b"] and a window of 5, the
    well-formed record ["a,b,c"] is shown as the placeholder itself. *)
Remark interpret_placeholder_collision :
  let cfg := {| Config.scrolling_msg_len := 5;
                Config.english_text_only := false;
                Config.default_text := lit "default text";
                Config.error_text := lit "a - b" |} in
  Player.interpret cfg (split "," (lit "a,b,c"))
  = Utils.center_text (Config.error_text cfg) (Config.scrolling_msg_len cfg)
  /\ len (split "," (lit "a,b,c")) = 3.
Proof. split; reflexivity. Qed.

(** C6 at a track of [vlc] that has no title, the artist ["Artist"] and
    the URL ["file:///home/x/Song%20Title.mp3"]: the record printed starts
    with the quote of the format, so its first field is the quote and not
    the empty text, and the text shown is ["' - Artist"]; the title
    [Utils.clean_track_title] makes of the URL, ["Song Title.mp3"], is not
    shown. *)
Theorem metadata_titleless_track :
  let url := lit "file:///home/x/Song%20Title.mp3" in
  let w := {| Playerctl.available_players := [lit "vlc"];
              Playerctl.status := fun _ => lit "Playing";
              Playerctl.metadata_output :=
                fun _ => metadata_record [] (lit "Artist") url |} in
  split "," (Playerctl.metadata_output w (Player.player_name Sample.vlc))
  = [lit "'"; lit "Artist"; url ++ [PlayerctlOutput.newline]]
  /\ Player.metadata w Sample.vlc = lit "' - Artist"
  /\ Utils.clean_track_title url = lit "Song Title.mp3"
  /\ Player.metadata w Sample.vlc
     <> Utils.clean_track_title url ++ lit " - Artist".
Proof.
  cbv zeta. repeat split. vm_compute. discriminate.
Qed.

(** ** PolyPlay._update_player_list *)

Lemma str_eqb_eq a b : str_eqb a b = true <-> a = b.
Proof.
  unfold str_eqb. destruct (list_eq_dec ascii_dec a b); split;
    congruence.
Qed.

Lemma str_eqb_neq a b : str_eqb a b = false <-> a <> b.
Proof.
  unfold str_eqb. destruct (list_eq_dec ascii_dec a b); split;
    congruence.
Qed.

Lemma contains_In x l : contains x l = true <-> In x l.
Proof.
  unfold contains. rewrite existsb_exists. split.
  - intros (y & Hy & E). apply str_eqb_eq in E. subst. exact Hy.
  - intros H. exists x. split; [exact H | apply str_eqb_eq; reflexivity].
Qed.

Lemma contains_not_In x l : contains x l = false <-> ~ In x l.
Proof.
  rewrite <- contains_In. destruct (contains x l); split; congruence.
Qed.

(** [new_list.remove(name)] after a successful [name in new_list]. *)
Lemma remove_name_present x l :
  In x l ->
  exists l',
    PolyPlay.remove_name x l = Ok l'
    /\ (forall n, In n l' -> In n l)
    /\ (forall n, n <> x -> In n l -> In n l').
Proof.
  unfold PolyPlay.remove_name.
  induction l as [| y l IH]; intros Hin; [contradiction |].
  cbn [Py.remove]. destruct (str_eqb y x) eqn:E.
  - exists l. split; [reflexivity |]. split.
    + intros n Hn. right. exact Hn.
    + intros n Hne [-> | Hn]; [| exact Hn].
      apply str_eqb_eq in E. congruence.
  - apply str_eqb_neq in E.
    destruct Hin as [-> | Hin]; [congruence |].
    destruct (IH Hin) as (l' & Hrem & Hsub & Hkeep).
    destruct (Py.remove x l) as [l0 |]; [| discriminate Hrem].
    injection Hrem as ->. exists (y :: l'). split; [reflexivity |]. split.
    + intros n [-> | Hn]; [left; reflexivity | right; apply Hsub, Hn].
    + intros n Hne [-> | Hn]; [left; reflexivity | right; apply Hkeep; assumption].
Qed.

(** [self.player_list.remove(existing_player)] for an entry of the list. *)
Lemma remove_player_present x l :
  In x l ->
  exists l',
    PolyPlay.remove_player x l = Ok l' /\ S (List.length l') = List.length l.
Proof.
  induction l as [| y l IH]; intros Hin; [contradiction |].
  cbn [PolyPlay.remove_player]. destruct (Player.same y x) eqn:E.
  - exists l. split; reflexivity.
  - destruct Hin as [-> | Hin].
    + unfold Player.same in E. rewrite Nat.eqb_refl in E. discriminate E.
    + destruct (IH Hin) as (l' & -> & Hlen). cbn [bind].
      exists (y :: l'). split; [reflexivity |]. simpl. rewrite Hlen. reflexivity.
Qed.

Lemma remove_player_last pre x :
  ~ In (Player.oid x) (map Player.oid pre) ->
  PolyPlay.remove_player x (pre ++ [x]) = Ok pre.
Proof.
  induction pre as [| y pre IH]; intros Hnot; cbn [app PolyPlay.remove_player].
  - unfold Player.same. rewrite Nat.eqb_refl. reflexivity.
  - assert (E : Player.same y x = false).
    { unfold Player.same. apply Nat.eqb_neq. intros Heq.
      apply Hnot. left. exact Heq. }
    rewrite E, IH; [reflexivity |].
    intros Hin. apply Hnot. right. exact Hin.
Qed.

Lemma prune_unfold fuel i player_list new_list :
  PolyPlay.prune fuel i player_list new_list
  = match nth_error player_list i with
    | None => Ok (player_list, new_list)
    | Some existing_player =>
        match fuel with
        | O => Raise OutOfFuel
        | S fuel' =>
            let name := Player.player_name existing_player in
            player_list' <-
              (if negb (contains name new_list)
               then PolyPlay.remove_player existing_player player_list
               else Ok player_list) ;;
            new_list' <-
              (if contains name new_list
               then PolyPlay.remove_name name new_list
               else Ok new_list) ;;
            PolyPlay.prune fuel' (S i) player_list' new_list'
        end
    end.
Proof. destruct fuel; reflexivity. Qed.

(** The first loop ends without an exception as soon as the budget covers
    the entries still ahead of the iterator. *)
Lemma prune_returns fuel :
  forall i player_list new_list,
    (List.length player_list - i <= fuel)%nat ->
    exists r, PolyPlay.prune fuel i player_list new_list = Ok r.
Proof.
  induction fuel as [| fuel IH]; intros i pl nl Hfuel; rewrite prune_unfold.
  - destruct (nth_error pl i) eqn:E; [| eexists; reflexivity].
    assert (i < List.length pl)%nat by (apply nth_error_Some; congruence). lia.
  - destruct (nth_error pl i) as [x |] eqn:E; [| eexists; reflexivity].
    assert (Hi : (i < List.length pl)%nat) by (apply nth_error_Some; congruence).
    cbv zeta. destruct (contains (Player.player_name x) nl) eqn:Hc; cbn [negb bind].
    + destruct (remove_name_present _ _ (proj1 (contains_In _ _) Hc))
        as (nl' & -> & _). cbn [bind].
      apply IH. lia.
    + destruct (remove_player_present x pl (nth_error_In _ _ E))
        as (pl' & -> & Hlen). cbn [bind].
      apply IH. lia.
Qed.

(** In a world that answers, reconciliation always returns: the budget
    given to the first loop is enough, and no [remove] fails. *)
Theorem update_player_list_returns w self :
  exists self', PolyPlay._update_player_list w self = Ok self'.
Proof.
  unfold PolyPlay._update_player_list. cbv zeta.
  destruct (negb _); [| eexists; reflexivity].
  destruct (prune_returns (List.length (PolyPlay.player_list self)) 0
              (PolyPlay.player_list self) (Player.get_available_players w)
              ltac:(lia)) as (r & ->).
  cbn [bind]. destruct (len (snd r) >? 0); eexists; reflexivity.
Qed.

(** C9: when the snapshot has as many identifiers as the registry has
    players, reconciliation changes nothing, whatever the identifiers
    are. *)
Theorem update_player_list_same_size w self :
  len (Player.get_available_players w) = len (PolyPlay.player_list self) ->
  PolyPlay._update_player_list w self = Ok self.
Proof.
  intros Hlen. unfold PolyPlay._update_player_list. cbv zeta.
  rewrite Hlen, Z.eqb_refl. reflexivity.
Qed.

Lemma update_player_list_same_size_witness :
  let w := Sample.world ["firefox"%string] "a,b,c" in
  let self := Sample.polyplay [Sample.vlc] 0 in
  PolyPlay._update_player_list w self = Ok self
  /\ ~ In (Player.player_name Sample.vlc) (Player.get_available_players w).
Proof.
  cbv zeta. split.
  - apply (update_player_list_same_size
             (Sample.world ["firefox"%string] "a,b,c")
             (Sample.polyplay [Sample.vlc] 0)).
    reflexivity.
  - apply contains_not_In. reflexivity.
Defined.

(** *** The first loop when no entry is skipped

    Removing entry [i] of the list moves entry [i + 1] under the iterator's
    back, so the loop only visits every player when the one it removes is
    the last.  [pre] is the part of the list behind the iterator, [rest] the
    part ahead. *)

Lemma prune_no_skip rest :
  forall pre new_list fuel,
    (List.length rest <= fuel)%nat ->
    NoDup (map Player.oid (pre ++ rest)) ->
    NoDup (map Player.player_name rest) ->
    (forall p, In p (removelast rest) -> In (Player.player_name p) new_list) ->
    exists new_list',
      PolyPlay.prune fuel (List.length pre) (pre ++ rest) new_list
      = Ok (pre ++ filter (in_snapshot new_list) rest, new_list')
      /\ (forall n, In n new_list' -> In n new_list)
      /\ (forall n, In n new_list ->
                    ~ In n (map Player.player_name rest) -> In n new_list').
Proof.
  induction rest as [| x rest IH]; intros pre nl fuel Hfuel Hoid Hname Hlive;
    rewrite prune_unfold.
  - rewrite app_nil_r.
    assert (E : nth_error pre (List.length pre) = None)
      by (apply nth_error_None; lia).
    rewrite E. exists nl. cbn [filter]. rewrite app_nil_r. auto.
  - assert (E : nth_error (pre ++ x :: rest) (List.length pre) = Some x).
    { rewrite nth_error_app2 by lia. rewrite Nat.sub_diag. reflexivity. }
    rewrite E. destruct fuel as [| fuel]; [simpl in Hfuel; lia |].
    cbv zeta. cbn [filter]. unfold in_snapshot at 1.
    destruct (contains (Player.player_name x) nl) eqn:Hc; cbn [negb bind].
    + (* the player is still alive: its name is struck off [new_list] *)
      destruct (remove_name_present _ _ (proj1 (contains_In _ _) Hc))
        as (nl1 & -> & Hsub & Hkeep). cbn [bind].
      cbn [map] in Hname. apply NoDup_cons_iff in Hname as [Hx Hname].
      assert (Hother : forall p, In p rest ->
                Player.player_name p <> Player.player_name x).
      { intros p Hp Heq. apply Hx. rewrite <- Heq. apply in_map. exact Hp. }
      replace (pre ++ x :: rest) with ((pre ++ [x]) ++ rest)
        by (rewrite <- app_assoc; reflexivity).
      replace (S (List.length pre)) with (List.length (pre ++ [x]))
        by (rewrite length_app; simpl; lia).
      destruct (IH (pre ++ [x]) nl1 fuel) as (nl' & Hrun & Hsub' & Hkeep').
      * simpl in Hfuel. lia.
      * rewrite <- app_assoc. exact Hoid.
      * exact Hname.
      * intros p Hp.
        assert (Hp' : In p rest).
        { destruct rest as [| y rest']; [contradiction |].
          destruct (exists_last (l := y :: rest') ltac:(discriminate))
            as (front & z & Hsplit).
          rewrite Hsplit in Hp |- *. rewrite removelast_last in Hp.
          apply in_or_app. left. exact Hp. }
        apply Hkeep; [apply Hother, Hp' |]. apply Hlive.
        destruct rest as [| y rest']; [contradiction |].
        right. exact Hp.
      * exists nl'. split; [| split].
        -- assert (Hsame : filter (in_snapshot nl1) rest
                           = filter (in_snapshot nl) rest).
           { apply filter_ext_in. intros p Hp. unfold in_snapshot.
             destruct (contains (Player.player_name p) nl) eqn:Hin.
             - apply contains_In. apply Hkeep; [apply Hother, Hp |].
               apply contains_In. exact Hin.
             - apply contains_not_In. intros Hin1.
               apply contains_not_In in Hin. apply Hin, Hsub, Hin1. }
           rewrite Hrun, Hsame, <- app_assoc. reflexivity.
        -- intros n Hn. apply Hsub, Hsub', Hn.
        -- intros n Hn Hnot. apply Hkeep'.
           ++ apply Hkeep; [| exact Hn]. intros ->. apply Hnot. left. reflexivity.
           ++ intros Hin. apply Hnot. right. exact Hin.
    + (* the player is gone: it has to be the last one *)
      assert (rest = []) as ->.
      { destruct rest as [| y rest']; [reflexivity |]. exfalso.
        apply contains_not_In in Hc. apply Hc, Hlive. left. reflexivity. }
      rewrite remove_player_last.
      * cbn [bind]. rewrite prune_unfold.
        assert (E' : nth_error pre (S (List.length pre)) = None)
          by (apply nth_error_None; lia).
        rewrite E'. exists nl. rewrite app_nil_r. auto.
      * rewrite map_app in Hoid. cbn [map] in Hoid.
        apply NoDup_remove_2 in Hoid. rewrite app_nil_r in Hoid. exact Hoid.
Qed.

(** *** The second loop *)

Lemma discover_all w new_list :
  forall self,
    map Player.player_name
      (PolyPlay.player_list (fold_left (PolyPlay.discover w) new_list self))
    = map Player.player_name (PolyPlay.player_list self)
      ++ filter (fun n => negb (stopped_on_discovery w n)) new_list
    /\ exists added,
         PolyPlay.player_list (fold_left (PolyPlay.discover w) new_list self)
         = PolyPlay.player_list self ++ added.
Proof.
  induction new_list as [| n nl IH]; intros self; cbn [fold_left filter].
  - rewrite app_nil_r. split; [reflexivity |]. exists []. rewrite app_nil_r.
    reflexivity.
  - destruct (IH (PolyPlay.discover w self n)) as (Hnames & added & Hlist).
    rewrite Hnames, Hlist. unfold PolyPlay.discover.
    change (Player.is_stopped w
              (Player.init (PolyPlay.fresh self) n (PolyPlay.config self)))
      with (stopped_on_discovery w n).
    destruct (stopped_on_discovery w n); simpl_self; cbn [negb].
    + split; [reflexivity |]. exists added. reflexivity.
    + rewrite map_app, <- !app_assoc. split; [reflexivity |].
      eexists. reflexivity.
Qed.

(** *** Reconciliation when the sizes differ and no entry is skipped *)

Lemma update_player_list_shape w self :
  let snapshot := Player.get_available_players w in
  let tracked := PolyPlay.player_list self in
  len snapshot <> len tracked ->
  NoDup (map Player.oid tracked) ->
  NoDup (map Player.player_name tracked) ->
  (forall p, In p (removelast tracked) -> In (Player.player_name p) snapshot) ->
  exists self' unclaimed added,
    PolyPlay._update_player_list w self = Ok self'
    /\ PolyPlay.player_list self'
       = filter (in_snapshot snapshot) tracked ++ added
    /\ map Player.player_name added
       = filter (fun n => negb (stopped_on_discovery w n)) unclaimed
    /\ (forall n, In n unclaimed -> In n snapshot)
    /\ (forall n, In n snapshot ->
                  ~ In n (map Player.player_name tracked) -> In n unclaimed).
Proof.
  cbv zeta. intros Hsize Hoid Hname Hlive.
  unfold PolyPlay._update_player_list. cbv zeta.
  destruct (Z.eqb_spec (len (Player.get_available_players w))
              (len (PolyPlay.player_list self))) as [E | _]; [contradiction |].
  cbn [negb].
  destruct (prune_no_skip (PolyPlay.player_list self) []
              (Player.get_available_players w)
              (List.length (PolyPlay.player_list self)) ltac:(lia)
              Hoid Hname Hlive) as (nl' & Hrun & Hsub & Hkeep).
  cbn [app List.length] in Hrun. rewrite Hrun. cbn [bind fst snd].
  set (kept := filter (in_snapshot (Player.get_available_players w))
                 (PolyPlay.player_list self)).
  destruct (discover_all w nl' (PolyPlay.set_player_list self kept))
    as (Hnames & added & Hlist).
  simpl_self. cbn [PolyPlay.player_list] in Hnames, Hlist.
  rewrite Hlist, map_app in Hnames. apply app_inv_head in Hnames.
  destruct (Z.gtb_spec (len nl') 0) as [Hpos | Hzero].
  - eexists _, nl', added. split; [reflexivity |].
    split; [exact Hlist |]. split; [exact Hnames |]. split; assumption.
  - assert (nl' = []) as ->.
    { destruct nl'; [reflexivity | unfold len in Hzero; simpl in Hzero; lia]. }
    cbn [fold_left] in Hlist. simpl_self. simpl_self.
    eexists _, [], added. split; [reflexivity |].
    split; [exact Hlist |]. split; [exact Hnames |]. split; assumption.
Qed.

(** Where reconciliation does what its docstring says: when the snapshot
    and the registry differ in size, the tracked players are distinct
    objects with distinct identifiers, and every tracked player except
    possibly the last is in the snapshot, no player whose identifier is
    absent from the snapshot is left, and the identifiers in the registry
    are exactly those of the snapshot that were already tracked or were not
    Stopped when discovered. *)
Lemma update_player_list_content w self :
  let snapshot := Player.get_available_players w in
  let tracked := PolyPlay.player_list self in
  len snapshot <> len tracked ->
  NoDup (map Player.oid tracked) ->
  NoDup (map Player.player_name tracked) ->
  (forall p, In p (removelast tracked) -> In (Player.player_name p) snapshot) ->
  exists self',
    PolyPlay._update_player_list w self = Ok self'
    /\ (forall p, In p (PolyPlay.player_list self') ->
                  In (Player.player_name p) snapshot)
    /\ (forall n,
          In n (map Player.player_name (PolyPlay.player_list self'))
          <-> In n snapshot
              /\ (In n (map Player.player_name tracked)
                  \/ stopped_on_discovery w n = false)).
Proof.
  cbv zeta. intros Hsize Hoid Hname Hlive.
  destruct (update_player_list_shape w self Hsize Hoid Hname Hlive)
    as (self' & unclaimed & added & Hrun & Hlist & Hadded & Hsub & Hkeep).
  exists self'. split; [exact Hrun |].
  assert (Hnew : forall n, In n (map Player.player_name added) <->
                   In n unclaimed /\ stopped_on_discovery w n = false).
  { intros n. rewrite Hadded, filter_In, negb_true_iff. reflexivity. }
  assert (Hold : forall p,
            In p (filter (in_snapshot (Player.get_available_players w))
                    (PolyPlay.player_list self)) <->
            In p (PolyPlay.player_list self)
            /\ In (Player.player_name p) (Player.get_available_players w)).
  { intros p. rewrite filter_In. unfold in_snapshot. rewrite contains_In.
    reflexivity. }
  split.
  - intros p Hp. rewrite Hlist in Hp. apply in_app_or in Hp as [Hp | Hp].
    + apply Hold in Hp. apply Hp.
    + apply Hsub, Hnew. apply in_map. exact Hp.
  - intros n. rewrite Hlist, map_app, in_app_iff. split.
    + intros [Hn | Hn].
      * apply in_map_iff in Hn as (p & <- & Hp). apply Hold in Hp as [Hp Hin].
        split; [exact Hin |]. left. apply in_map. exact Hp.
      * apply Hnew in Hn as [Hn Hst]. split; [apply Hsub, Hn |].
        right. exact Hst.
    + intros [Hin Hwhy].
      destruct (in_dec (list_eq_dec ascii_dec) n
                  (map Player.player_name (PolyPlay.player_list self)))
        as [Htracked | Hfresh].
      * left. apply in_map_iff in Htracked as (p & <- & Hp).
        apply in_map. apply Hold. split; assumption.
      * destruct Hwhy as [Htracked | Hst]; [contradiction |].
        right. apply Hnew. split; [apply Hkeep; assumption | exact Hst].
Qed.

(** C1 at a registry [vlc] and the snapshot [firefox], one player having
    replaced the other between two ticks: the sizes agree, nothing is done,
    [vlc] stays tracked though it is gone, and [firefox], alive and not
    Stopped, is not tracked.  And at a registry [vlc; firefox] and the empty
    snapshot, where the sizes differ: [firefox] stays tracked though it is
    gone. *)
Theorem update_player_list_leaves_absent_player :
  let w := Sample.world ["firefox"%string] "a,b,c" in
  let self := Sample.polyplay [Sample.vlc] 0 in
  let w0 := Sample.world [] "a,b,c" in
  let self0 := Sample.polyplay [Sample.vlc; Sample.firefox] 0 in
  (exists self',
     PolyPlay._update_player_list w self = Ok self'
     /\ PolyPlay.player_list self' = [Sample.vlc]
     /\ ~ In (Player.player_name Sample.vlc) (Player.get_available_players w)
     /\ In (lit "firefox") (Player.get_available_players w)
     /\ stopped_on_discovery w (lit "firefox") = false
     /\ ~ In (lit "firefox")
            (map Player.player_name (PolyPlay.player_list self')))
  /\ (exists self',
        PolyPlay._update_player_list w0 self0 = Ok self'
        /\ PolyPlay.player_list self' = [Sample.firefox]
        /\ Player.get_available_players w0 = []).
Proof.
  cbv zeta. split.
  - eexists. split; [reflexivity |]. split; [reflexivity |].
    split; [apply contains_not_In; reflexivity |].
    split; [apply contains_In; reflexivity |].
    split; [reflexivity |]. apply contains_not_In. reflexivity.
  - eexists. split; [reflexivity |]. split; reflexivity.
Qed.

(** C5 at a registry of two players that have both gone: the first
    reconciliation removes only the first of them, the second removes the
    other, so the second call does change the registry. *)
Theorem update_player_list_twice :
  let w := Sample.world [] "a,b,c" in
  let self := Sample.polyplay [Sample.vlc; Sample.firefox] 0 in
  exists once twice,
    PolyPlay._update_player_list w self = Ok once
    /\ PolyPlay._update_player_list w once = Ok twice
    /\ PolyPlay.player_list once = [Sample.firefox]
    /\ PolyPlay.player_list twice = []
    /\ once <> twice.
Proof.
  cbv zeta. eexists _, _. split; [reflexivity |]. split; [reflexivity |].
  split; [reflexivity |]. split; [reflexivity |].
  intros H. apply (f_equal PolyPlay.player_list) in H. discriminate H.
Qed.

(** C8 at a registry [vlc; firefox] and the snapshot [firefox]: removing
    [vlc] makes the loop step over [firefox], whose name stays in the new
    list, and a second [Player] object is built for it. *)
Theorem update_player_list_recreates :
  let w := Sample.world ["firefox"%string] "a,b,c" in
  let self := Sample.polyplay [Sample.vlc; Sample.firefox] 0 in
  exists self',
    PolyPlay._update_player_list w self = Ok self'
    /\ PolyPlay.player_list self'
       = [Sample.firefox;
          Player.init (PolyPlay.fresh self) (lit "firefox") Config.default]
    /\ Player.same Sample.firefox
         (Player.init (PolyPlay.fresh self) (lit "firefox") Config.default)
       = false.
Proof.
  cbv zeta. eexists. split; [reflexivity |]. split; reflexivity.
Qed.

(** * Further properties *)

(** ** Utils.center_text, continued *)

Lemma center_text_padded_len text target :
  len text < target -> len (Utils.center_text text target) = target - 1.
Proof.
  intros Hlt. rewrite center_text_padded by exact Hlt.
  rewrite !len_app, !len_mul.
  pose proof (len_nonneg text) as Hn.
  pose proof (Z.div_mod (target - len text) 2 ltac:(lia)) as Hdm.
  pose proof (Z.mod_pos_bound (target - len text) 2 ltac:(lia)) as Hm.
  lia.
Qed.

(** X1: centering an already centered text changes nothing, for every text
    and every target that is not negative. *)
Theorem center_text_idempotent text target :
  0 <= target ->
  Utils.center_text (Utils.center_text text target) target
  = Utils.center_text text target.
Proof.
  intros Htarget.
  destruct (Z.lt_ge_cases (len text) target) as [Hshort | Hlong].
  - pose proof (center_text_padded_len text target Hshort) as Hlen.
    rewrite (center_text_padded (Utils.center_text text target))
      by (rewrite Hlen; lia).
    rewrite Hlen.
    replace (target - (target - 1)) with 1 by lia.
    change (mul " " (1 / 2)) with (@nil ascii).
    change (mul " " (1 - 1 / 2 - 1)) with (@nil ascii).
    cbn [app]. apply app_nil_r.
  - assert (Hcut : Utils.center_text text target
                   = firstn (Z.to_nat target) text).
    { unfold Utils.center_text.
      assert (E : (len text >=? target) = true)
        by (rewrite Z.geb_leb; apply Z.leb_le; lia).
      rewrite E. apply slice_to_firstn. lia. }
    rewrite Hcut.
    assert (Hlen : len (firstn (Z.to_nat target) text) = target).
    { unfold len in *. rewrite length_firstn. lia. }
    unfold Utils.center_text.
    assert (E : (len (firstn (Z.to_nat target) text) >=? target) = true)
      by (rewrite Z.geb_leb; apply Z.leb_le; lia).
    rewrite E, slice_to_firstn by lia.
    apply firstn_all2. unfold len in Hlen. lia.
Qed.

Lemma center_text_idempotent_witness :
  Utils.center_text (Utils.center_text (lit "abc") 7) 7
  = Utils.center_text (lit "abc") 7.
Proof. apply (center_text_idempotent (lit "abc") 7). lia. Defined.

(** X2: a text shorter than the target is padded with spaces on both
    sides, and the left padding is as long as the right one or one space
    longer. *)
Theorem center_text_balanced text target :
  len text < target ->
  exists left right,
    Utils.center_text text target = mul " " left ++ text ++ mul " " right
    /\ 0 <= right <= left
    /\ left <= right + 1
    /\ left + len text + right = target - 1.
Proof.
  intros Hlt.
  exists ((target - len text) / 2),
         (target - len text - (target - len text) / 2 - 1).
  split; [apply center_text_padded; exact Hlt |].
  pose proof (Z.div_mod (target - len text) 2 ltac:(lia)) as Hdm.
  pose proof (Z.mod_pos_bound (target - len text) 2 ltac:(lia)) as Hm.
  lia.
Qed.

Lemma center_text_balanced_witness :
  exists left right,
    Utils.center_text (lit "default text") 15
    = mul " " left ++ lit "default text" ++ mul " " right
    /\ 0 <= right <= left
    /\ left <= right + 1
    /\ left + len (lit "default text") + right = 15 - 1.
Proof. apply (center_text_balanced (lit "default text") 15). reflexivity. Defined.

(** ** PolyPlay._update_scrolling_text, continued *)

(** Reduces the field reads of an updated [Player] record. *)
Ltac simpl_player :=
  cbn [Player.oid Player.player_name Player.config Player.display_text
       Player.display_text_start_index fst snd].

(** An update leaves the identity, the name and the configuration of the
    player alone. *)
Lemma update_scrolling_text_keeps w self player :
  let player' := fst (PolyPlay._update_scrolling_text w self player) in
  Player.oid player' = Player.oid player
  /\ Player.player_name player' = Player.player_name player
  /\ Player.config player' = Player.config player.
Proof.
  cbv zeta. unfold PolyPlay._update_scrolling_text.
  destruct (Player.is_playing w player); cbn [negb].
  - simpl_player. auto.
  - cbv zeta. destruct (str_eqb (Player.display_text player) []);
      simpl_player; auto.
Qed.

(** What [playerctl] is asked depends on the name and the configuration
    only. *)
Lemma metadata_same_player w p q :
  Player.player_name p = Player.player_name q ->
  Player.config p = Player.config q ->
  Player.metadata w p = Player.metadata w q.
Proof.
  intros Hname Hcfg. unfold Player.metadata, Player.exists_.
  rewrite Hname, Hcfg. reflexivity.
Qed.

Lemma is_playing_same_player w p q :
  Player.player_name p = Player.player_name q ->
  Player.is_playing w p = Player.is_playing w q.
Proof. intros Hname. unfold Player.is_playing. rewrite Hname. reflexivity. Qed.

Section ScrollingWindow.

Variable w : Playerctl.t.
Variable self : PolyPlay.t.

Let msg_len := Config.scrolling_msg_len (PolyPlay.config self).

Lemma len_full_media_text player :
  len (full_media_text w player) = len (Player.metadata w player) + 2.
Proof. unfold full_media_text. rewrite len_app, len_mul. lia. Qed.

Lemma full_media_text_same p q :
  Player.player_name p = Player.player_name q ->
  Player.config p = Player.config q ->
  full_media_text w p = full_media_text w q.
Proof.
  intros Hname Hcfg. unfold full_media_text.
  rewrite (metadata_same_player w p q Hname Hcfg). reflexivity.
Qed.

(** X3: when the offset lies inside the text and the window is not wider
    than the text with its separator, the string produced for a playing
    player is the window of that width, starting at the offset, of the text
    written twice in a row: what runs off the end continues from the
    start. *)
Theorem scrolling_text_is_cyclic_window player :
  Player.is_playing w player = true ->
  0 <= Player.display_text_start_index player
    < len (full_media_text w player) ->
  0 <= msg_len <= len (full_media_text w player) ->
  snd (PolyPlay._update_scrolling_text w self player)
  = firstn (Z.to_nat msg_len)
      (skipn (Z.to_nat (Player.display_text_start_index player))
         (full_media_text w player ++ full_media_text w player)).
Proof.
  intros Hplay Hs Hw. unfold PolyPlay._update_scrolling_text.
  rewrite Hplay. cbn [negb snd]. fold msg_len.
  fold (full_media_text w player).
  set (full := full_media_text w player) in *.
  set (start := Player.display_text_start_index player) in *.
  set (n := len full) in *.
  assert (Hn : Z.of_nat (List.length full) = n) by reflexivity.
  assert (Has : adjust n start = start).
  { unfold adjust. destruct (Z.ltb_spec start 0); lia. }
  assert (Hae : adjust n (start + msg_len) = Z.min (start + msg_len) n).
  { unfold adjust. destruct (Z.ltb_spec (start + msg_len) 0); lia. }
  rewrite len_slice. fold n. rewrite Has, Hae.
  unfold slice at 1. fold n. rewrite Has, Hae.
  rewrite skipn_app, firstn_app, length_skipn.
  replace (Z.to_nat start - List.length full)%nat with 0%nat by lia.
  cbn [skipn].
  destruct (Z.ltb_spec (Z.max 0 (Z.min (start + msg_len) n - start)) msg_len)
    as [Hpad | Hnopad].
  - (* the window runs off the end *)
    assert (Hm : (start + msg_len) mod n = start + msg_len - n).
    { symmetry. apply Z.mod_unique_pos with (q := 1); lia. }
    rewrite Hm. unfold slice_to, slice. fold n.
    assert (Ha0 : adjust n 0 = 0).
    { unfold adjust. replace (0 <? 0) with false by reflexivity. lia. }
    assert (Ham : adjust n (start + msg_len - n) = start + msg_len - n).
    { unfold adjust. destruct (Z.ltb_spec (start + msg_len - n) 0); lia. }
    rewrite Ha0, Ham. cbn [Z.to_nat skipn]. f_equal.
    + rewrite !firstn_all2; [reflexivity | |];
        rewrite length_skipn; lia.
    + f_equal. lia.
  - (* the window fits *)
    rewrite app_nil_r.
    replace (Z.to_nat msg_len - (List.length full - Z.to_nat start))%nat
      with 0%nat by lia.
    cbn [firstn]. rewrite app_nil_r. f_equal. lia.
Qed.

(** The offset after at least one update. *)
Lemma scroll_offset_after k :
  forall player,
    Player.is_playing w player = true ->
    Player.display_text_start_index (scroll_updates (S k) w self player)
    = (Player.display_text_start_index player + Z.of_nat (S k))
      mod len (full_media_text w player).
Proof.
  induction k as [| k IH]; intros player Hplay.
  - cbn [scroll_updates]. unfold PolyPlay._update_scrolling_text.
    rewrite Hplay. cbn [negb]. simpl_player. reflexivity.
  - change (scroll_updates (S (S k)) w self player)
      with (scroll_updates (S k) w self
              (fst (PolyPlay._update_scrolling_text w self player))).
    destruct (update_scrolling_text_keeps w self player)
      as (_ & Hname & Hcfg).
    rewrite IH
      by (rewrite (is_playing_same_player w _ player Hname); exact Hplay).
    rewrite (full_media_text_same _ player Hname Hcfg).
    unfold PolyPlay._update_scrolling_text at 1.
    rewrite Hplay. cbn [negb]. simpl_player.
    fold (full_media_text w player).
    rewrite Z.add_mod_idemp_l
      by (rewrite len_full_media_text;
          pose proof (len_nonneg (Player.metadata w player)); lia).
    f_equal. lia.
Qed.

Lemma scroll_updates_keep k :
  forall player,
    Player.player_name (scroll_updates k w self player)
    = Player.player_name player
    /\ Player.config (scroll_updates k w self player) = Player.config player.
Proof.
  induction k as [| k IH]; intros player; [split; reflexivity |].
  cbn [scroll_updates].
  destruct (update_scrolling_text_keeps w self player) as (_ & Hname & Hcfg).
  destruct (IH (fst (PolyPlay._update_scrolling_text w self player)))
    as [Hn1 Hc1].
  split; congruence.
Qed.

(** X4: whatever the offset was (a stale one, left by a longer text,
    included), after [k >= 1] consecutive updates of a playing player it is
    [(offset + k) mod n], inside the text of length [n]. *)
Theorem scroll_offset_in_range k player :
  Player.is_playing w player = true ->
  (1 <= k)%nat ->
  let offset := Player.display_text_start_index (scroll_updates k w self player) in
  offset = (Player.display_text_start_index player + Z.of_nat k)
           mod len (full_media_text w player)
  /\ 0 <= offset < len (full_media_text w player).
Proof.
  intros Hplay Hk. cbv zeta.
  destruct k as [| k]; [lia |].
  rewrite (scroll_offset_after k player Hplay).
  split; [reflexivity |].
  apply Z.mod_pos_bound. rewrite len_full_media_text.
  pose proof (len_nonneg (Player.metadata w player)). lia.
Qed.

(** X5: the scrolling is periodic: after as many updates as the text with
    its separator has characters, a playing player is back at the offset it
    started from, and the next update produces the same string again. *)
Theorem scroll_period player :
  Player.is_playing w player = true ->
  0 <= Player.display_text_start_index player
    < len (full_media_text w player) ->
  let player' :=
    scroll_updates (List.length (full_media_text w player)) w self player in
  Player.display_text_start_index player'
  = Player.display_text_start_index player
  /\ snd (PolyPlay._update_scrolling_text w self player')
     = snd (PolyPlay._update_scrolling_text w self player).
Proof.
  intros Hplay Hs. cbv zeta.
  set (n := List.length (full_media_text w player)).
  assert (Hn : len (full_media_text w player) = Z.of_nat n) by reflexivity.
  assert (Hoff : Player.display_text_start_index (scroll_updates n w self player)
                 = Player.display_text_start_index player).
  { destruct n as [| k] eqn:En; [lia |].
    rewrite (scroll_offset_after k player Hplay), Hn.
    rewrite <- (Z.mul_1_l (Z.of_nat (S k))) at 1.
    rewrite Z.mod_add by lia. apply Z.mod_small. lia. }
  split; [exact Hoff |].
  destruct (scroll_updates_keep n player) as [Hname Hcfg].
  unfold PolyPlay._update_scrolling_text.
  rewrite (is_playing_same_player w _ player Hname), Hplay. cbn [negb snd].
  rewrite (metadata_same_player w _ player Hname Hcfg), Hoff. reflexivity.
Qed.

(** X6: while the player is not playing the display is frozen: a second
    update in the same world returns the same string and leaves the player
    as the first update left it. *)
Theorem scrolling_frozen_when_not_playing player :
  Player.is_playing w player = false ->
  PolyPlay._update_scrolling_text w self
    (fst (PolyPlay._update_scrolling_text w self player))
  = PolyPlay._update_scrolling_text w self player.
Proof.
  intros Hpause.
  destruct (update_scrolling_text_keeps w self player) as (_ & Hname & Hcfg).
  set (p1 := fst (PolyPlay._update_scrolling_text w self player)) in *.
  assert (Hp1 : PolyPlay._update_scrolling_text w self player
                = (p1, Player.display_text p1)).
  { unfold p1, PolyPlay._update_scrolling_text. rewrite Hpause. reflexivity. }
  rewrite Hp1.
  unfold PolyPlay._update_scrolling_text at 1.
  rewrite (is_playing_same_player w p1 player Hname), Hpause. cbn [negb].
  cbv zeta. destruct (str_eqb (Player.display_text p1) []) eqn:Hempty;
    [| reflexivity].
  assert (Hcenter : Player.display_text p1
                    = Utils.center_text (Player.metadata w player) msg_len).
  { apply str_eqb_eq in Hempty.
    unfold p1, PolyPlay._update_scrolling_text in Hempty |- *.
    rewrite Hpause in Hempty |- *. cbn [negb] in Hempty |- *.
    cbv zeta in Hempty |- *.
    destruct (str_eqb (Player.display_text player) []) eqn:Hfirst.
    - simpl_player. reflexivity.
    - cbn [Player.display_text fst] in Hempty |- *.
      apply str_eqb_neq in Hfirst. contradiction. }
  rewrite (metadata_same_player w p1 player Hname Hcfg).
  fold msg_len. rewrite <- Hcenter. simpl_player.
  destruct p1; reflexivity.
Qed.

End ScrollingWindow.

Lemma scrolling_text_is_cyclic_window_witness :
  snd (PolyPlay._update_scrolling_text
         (Sample.world ["vlc"%string] "A Long Song Title,Somebody,u")
         PolyPlay.init Sample.vlc)
  = lit "A Long Song Tit".
Proof.
  rewrite (scrolling_text_is_cyclic_window
             (Sample.world ["vlc"%string] "A Long Song Title,Somebody,u")
             PolyPlay.init Sample.vlc);
    [reflexivity | reflexivity
    | vm_compute; split; [discriminate | reflexivity]
    | vm_compute; split; discriminate].
Defined.

Lemma scroll_offset_in_range_witness :
  Player.display_text_start_index
    (scroll_updates 9
       (Sample.world ["vlc"%string] "a,b,c") PolyPlay.init Sample.vlc)
  = 2.
Proof.
  destruct (scroll_offset_in_range
              (Sample.world ["vlc"%string] "a,b,c") PolyPlay.init 9
              Sample.vlc eq_refl ltac:(lia)) as [Hoff _].
  rewrite Hoff. reflexivity.
Defined.

Lemma scroll_period_witness :
  Player.display_text_start_index
    (scroll_updates 7
       (Sample.world ["vlc"%string] "a,b,c") PolyPlay.init Sample.vlc)
  = 0.
Proof.
  apply (scroll_period
           (Sample.world ["vlc"%string] "a,b,c") PolyPlay.init Sample.vlc).
  - reflexivity.
  - vm_compute. split; [discriminate | reflexivity].
Defined.

Lemma scrolling_frozen_when_not_playing_witness :
  let w :=
    {| Playerctl.available_players := [lit "vlc"];
       Playerctl.status := fun _ => lit "Paused";
       Playerctl.metadata_output := fun _ => lit "a,b,c" |} in
  PolyPlay._update_scrolling_text w PolyPlay.init
    (fst (PolyPlay._update_scrolling_text w PolyPlay.init Sample.vlc))
  = PolyPlay._update_scrolling_text w PolyPlay.init Sample.vlc.
Proof.
  cbv zeta.
  apply (scrolling_frozen_when_not_playing
           {| Playerctl.available_players := [lit "vlc"];
              Playerctl.status := fun _ => lit "Paused";
              Playerctl.metadata_output := fun _ => lit "a,b,c" |}
           PolyPlay.init Sample.vlc).
  reflexivity.
Defined.

(** ** Selection and cycling *)

(** A selection in closed form: the index is settled, the player at the
    settled position is returned, nothing else changes. *)
Lemma select_closed_form (self : PolyPlay.t) :
  PolyPlay._select_player_to_display self
  = Ok (PolyPlay.set_display_index self (selected_position self),
        nth_error (PolyPlay.player_list self)
          (Z.to_nat (selected_position self))).
Proof.
  destruct self as [cfg l i fr].
  unfold PolyPlay._select_player_to_display, selected_position.
  cbv zeta. simpl_self.
  pose proof (len_nonneg l) as Hl.
  assert (Hfinish : forall pos,
            l <> [] -> pos = History.settled (len l) i ->
            (p <- getitem l pos ;;
             Ok ({| PolyPlay.config := cfg; PolyPlay.player_list := l;
                    PolyPlay.display_index := pos; PolyPlay.fresh := fr |},
                 Some p))
            = Ok ({| PolyPlay.config := cfg; PolyPlay.player_list := l;
                     PolyPlay.display_index := History.settled (len l) i;
                     PolyPlay.fresh := fr |},
                  nth_error l (Z.to_nat (History.settled (len l) i)))).
  { intros pos Hne ->.
    assert (Hn : 1 <= len l)
      by (destruct l; [contradiction | unfold len; simpl; lia]).
    destruct (getitem_in_range l _ (settled_range (len l) i Hn))
      as (x & -> & ->).
    reflexivity. }
  destruct (Z.ltb_spec (len l) 1) as [H0 | H1].
  - assert (l = []) by (destruct l; [reflexivity | unfold len in H0; simpl in H0; lia]).
    subst l. reflexivity.
  - assert (Hne : l <> []) by (intros ->; unfold len in H1; simpl in H1; lia).
    destruct (Z.eqb_spec (len l) 1) as [E1 | Hmany].
    + apply Hfinish; [exact Hne |].
      unfold History.settled. rewrite E1.
      destruct (i <? 0); [reflexivity | symmetry; apply Z.mod_1_r].
    + destruct (Z.geb_spec i (len l - 1)) as [Hhi | Hlo]; simpl_self.
      * pose proof (Z.mod_pos_bound i (len l) ltac:(lia)) as Hm.
        destruct (Z.ltb_spec (i mod len l) 0) as [Hneg | _]; [lia |].
        simpl_self. apply Hfinish; [exact Hne |].
        unfold History.settled. destruct (Z.ltb_spec i 0); [lia | reflexivity].
      * destruct (Z.ltb_spec i 0) as [Hneg | Hpos]; simpl_self;
          (apply Hfinish; [exact Hne |]); unfold History.settled.
        -- destruct (Z.ltb_spec i 0); [reflexivity | lia].
        -- destruct (Z.ltb_spec i 0); [lia |]. symmetry. apply Z.mod_small. lia.
Qed.

Lemma selected_position_range self :
  PolyPlay.player_list self <> [] ->
  0 <= selected_position self < len (PolyPlay.player_list self).
Proof.
  intros Hne. unfold selected_position.
  assert (Hn : 1 <= len (PolyPlay.player_list self)).
  { destruct (PolyPlay.player_list self); [contradiction |].
    unfold len. simpl. lia. }
  destruct (Z.ltb_spec (len (PolyPlay.player_list self)) 1); [lia |].
  apply settled_range. exact Hn.
Qed.

(** X7: selecting twice in a row is selecting once: the second selection
    returns the same player and leaves the object as the first left it. *)
Theorem select_idempotent self self' r :
  PolyPlay._select_player_to_display self = Ok (self', r) ->
  PolyPlay._select_player_to_display self' = Ok (self', r).
Proof.
  rewrite select_closed_form. intros [= <- <-].
  rewrite select_closed_form.
  assert (Hpos : selected_position
                   (PolyPlay.set_display_index self (selected_position self))
                 = selected_position self).
  { unfold selected_position at 1. simpl_self.
    destruct (Z.ltb_spec (len (PolyPlay.player_list self)) 1) as [H0 | H1].
    - unfold selected_position.
      destruct (Z.ltb_spec (len (PolyPlay.player_list self)) 1); [reflexivity | lia].
    - assert (Hne : PolyPlay.player_list self <> []).
      { intros E. rewrite E in H1. unfold len in H1. simpl in H1. lia. }
      pose proof (selected_position_range self Hne) as Hr.
      unfold History.settled.
      destruct (Z.ltb_spec (selected_position self) 0); [lia |].
      apply Z.mod_small. exact Hr. }
  rewrite Hpos. reflexivity.
Qed.

Lemma select_idempotent_witness :
  PolyPlay._select_player_to_display
    (PolyPlay.set_display_index
       (Sample.polyplay [Sample.vlc; Sample.firefox; Sample.spotify] 7) 1)
  = Ok (PolyPlay.set_display_index
          (Sample.polyplay [Sample.vlc; Sample.firefox; Sample.spotify] 7) 1,
        Some Sample.firefox).
Proof.
  apply (select_idempotent
           (Sample.polyplay [Sample.vlc; Sample.firefox; Sample.spotify] 7)).
  reflexivity.
Defined.

Lemma cycle_forward_index k :
  forall self,
    2 <= len (PolyPlay.player_list self) ->
    PolyPlay.player_list (cycle_forward k self) = PolyPlay.player_list self
    /\ PolyPlay.display_index (cycle_forward k self)
       = PolyPlay.display_index self + Z.of_nat k
    /\ PolyPlay.config (cycle_forward k self) = PolyPlay.config self
    /\ PolyPlay.fresh (cycle_forward k self) = PolyPlay.fresh self.
Proof.
  induction k as [| k IH]; intros self Hn.
  - cbn [cycle_forward]. repeat split. lia.
  - cbn [cycle_forward].
    assert (Hstep : PolyPlay.cycle_player self
                    = PolyPlay.set_display_index self
                        (PolyPlay.display_index self + 1)).
    { unfold PolyPlay.cycle_player.
      destruct (Z.leb_spec (len (PolyPlay.player_list self)) 1); [lia |].
      reflexivity. }
    rewrite Hstep.
    destruct (IH (PolyPlay.set_display_index self
                    (PolyPlay.display_index self + 1)) Hn)
      as (Hl & Hi & Hc & Hf).
    rewrite Hl, Hi, Hc, Hf. simpl_self. repeat split. lia.
Qed.

(** X8: forward cycling is a round robin.  With at least two players and an
    index that is not negative, [k] forward cycles followed by a selection
    select the player [k] places further, counted cyclically; the index is
    settled there. *)
Theorem cycle_forward_round_robin k self :
  2 <= len (PolyPlay.player_list self) ->
  0 <= PolyPlay.display_index self ->
  let l := PolyPlay.player_list self in
  let pos := (PolyPlay.display_index self + Z.of_nat k) mod len l in
  exists self',
    PolyPlay._select_player_to_display (cycle_forward k self)
    = Ok (self', nth_error l (Z.to_nat pos))
    /\ PolyPlay.display_index self' = pos
    /\ PolyPlay.player_list self' = l
    /\ 0 <= pos < len l.
Proof.
  intros Hn Hi. cbv zeta.
  destruct (cycle_forward_index k self Hn) as (Hl & Hidx & _ & _).
  rewrite select_closed_form.
  assert (Hpos : selected_position (cycle_forward k self)
                 = (PolyPlay.display_index self + Z.of_nat k)
                   mod len (PolyPlay.player_list self)).
  { unfold selected_position, History.settled. rewrite Hl, Hidx.
    destruct (Z.ltb_spec (len (PolyPlay.player_list self)) 1); [lia |].
    destruct (Z.ltb_spec (PolyPlay.display_index self + Z.of_nat k) 0);
      [lia | reflexivity]. }
  rewrite Hpos, Hl. eexists. split; [reflexivity |]. simpl_self.
  split; [reflexivity |]. split; [exact Hl |].
  apply Z.mod_pos_bound. lia.
Qed.

Lemma cycle_forward_round_robin_witness :
  exists self',
    PolyPlay._select_player_to_display
      (cycle_forward 5
         (Sample.polyplay [Sample.vlc; Sample.firefox; Sample.spotify] 0))
    = Ok (self', Some Sample.spotify)
    /\ PolyPlay.display_index self' = 2.
Proof.
  destruct (cycle_forward_round_robin 5
              (Sample.polyplay [Sample.vlc; Sample.firefox; Sample.spotify] 0)
              ltac:(vm_compute; discriminate) ltac:(vm_compute; discriminate))
    as (self' & Hsel & Hidx & _).
  exists self'. split; [exact Hsel | exact Hidx].
Defined.

(** X9: with at least two players and an index that is not negative, one
    backward cycle followed by a selection selects the previous player,
    counted cyclically: the last one when the index was 0. *)
Theorem cycle_backward_previous self :
  2 <= len (PolyPlay.player_list self) ->
  0 <= PolyPlay.display_index self ->
  let l := PolyPlay.player_list self in
  let pos := (PolyPlay.display_index self - 1) mod len l in
  exists self',
    PolyPlay._select_player_to_display (PolyPlay.reverse_cycle_player self)
    = Ok (self', nth_error l (Z.to_nat pos))
    /\ PolyPlay.display_index self' = pos
    /\ 0 <= pos < len l.
Proof.
  intros Hn Hi. cbv zeta.
  assert (Hstep : PolyPlay.reverse_cycle_player self
                  = PolyPlay.set_display_index self
                      (PolyPlay.display_index self - 1)).
  { unfold PolyPlay.reverse_cycle_player.
    destruct (Z.leb_spec (len (PolyPlay.player_list self)) 1); [lia |].
    reflexivity. }
  rewrite Hstep, select_closed_form.
  assert (Hpos : selected_position
                   (PolyPlay.set_display_index self
                      (PolyPlay.display_index self - 1))
                 = (PolyPlay.display_index self - 1)
                   mod len (PolyPlay.player_list self)).
  { unfold selected_position, History.settled. simpl_self.
    destruct (Z.ltb_spec (len (PolyPlay.player_list self)) 1); [lia |].
    destruct (Z.ltb_spec (PolyPlay.display_index self - 1) 0) as [Hneg | _];
      [| reflexivity].
    replace (PolyPlay.display_index self) with 0 by lia.
    apply Z.mod_unique_pos with (q := -1); lia. }
  rewrite Hpos. simpl_self. eexists. split; [reflexivity |].
  split; [reflexivity |]. apply Z.mod_pos_bound. lia.
Qed.

Lemma cycle_backward_previous_witness :
  exists self',
    PolyPlay._select_player_to_display
      (PolyPlay.reverse_cycle_player
         (Sample.polyplay [Sample.vlc; Sample.firefox; Sample.spotify] 0))
    = Ok (self', Some Sample.spotify)
    /\ PolyPlay.display_index self' = 2.
Proof.
  destruct (cycle_backward_previous
              (Sample.polyplay [Sample.vlc; Sample.firefox; Sample.spotify] 0)
              ltac:(vm_compute; discriminate) ltac:(vm_compute; discriminate))
    as (self' & Hsel & Hidx & _).
  exists self'. split; [exact Hsel | exact Hidx].
Defined.

(** X10: with at most one player, cycling in either direction has no effect
    on what is selected next nor on the state the selection leaves. *)
Theorem cycle_single_player_no_effect self :
  len (PolyPlay.player_list self) <= 1 ->
  PolyPlay._select_player_to_display (PolyPlay.cycle_player self)
  = PolyPlay._select_player_to_display self
  /\ PolyPlay._select_player_to_display (PolyPlay.reverse_cycle_player self)
     = PolyPlay._select_player_to_display self.
Proof.
  intros Hn.
  assert (Hpos : forall i,
            selected_position (PolyPlay.set_display_index self i) = 0).
  { intros i. unfold selected_position, History.settled. simpl_self.
    destruct (Z.ltb_spec (len (PolyPlay.player_list self)) 1); [reflexivity |].
    replace (len (PolyPlay.player_list self)) with 1 by lia.
    destruct (i <? 0); [reflexivity | apply Z.mod_1_r]. }
  assert (Hself : selected_position self = 0).
  { destruct self as [cfg l i fr]. exact (Hpos i). }
  unfold PolyPlay.cycle_player, PolyPlay.reverse_cycle_player.
  destruct (Z.leb_spec (len (PolyPlay.player_list self)) 1); [| lia].
  rewrite !select_closed_form, Hpos, Hself. split; reflexivity.
Qed.

Lemma cycle_single_player_no_effect_witness :
  PolyPlay._select_player_to_display
    (PolyPlay.cycle_player (Sample.polyplay [Sample.vlc] 0))
  = PolyPlay._select_player_to_display (Sample.polyplay [Sample.vlc] 0).
Proof.
  apply (cycle_single_player_no_effect (Sample.polyplay [Sample.vlc] 0)).
  vm_compute. discriminate.
Defined.

(** ** split and join *)

Section SplitJoin.

Variable sep : ascii.

Lemma split_not_nil s : split sep s <> [].
Proof.
  destruct s as [| c s]; cbn [split]; [discriminate |].
  destruct (Ascii.eqb c sep); [discriminate |].
  destruct (split sep s); discriminate.
Qed.

Lemma split_sep_free s : sep_free sep s -> split sep s = [s].
Proof.
  induction s as [| c s IH]; intros Hfree; [reflexivity |].
  cbn [split].
  destruct (Ascii.eqb_spec c sep) as [-> | _].
  - exfalso. apply Hfree. left. reflexivity.
  - rewrite IH; [reflexivity |]. intros Hin. apply Hfree. right. exact Hin.
Qed.

(** Splitting at the first separator. *)
Lemma split_first a b :
  sep_free sep a -> split sep (a ++ sep :: b) = a :: split sep b.
Proof.
  induction a as [| c a IH]; intros Hfree; cbn [app split].
  - rewrite Ascii.eqb_refl. reflexivity.
  - destruct (Ascii.eqb_spec c sep) as [-> | _].
    + exfalso. apply Hfree. left. reflexivity.
    + rewrite IH; [reflexivity |]. intros Hin. apply Hfree. right. exact Hin.
Qed.

(** Splitting at the last separator. *)
Lemma split_last a b :
  sep_free sep b -> split sep (a ++ sep :: b) = split sep a ++ [b].
Proof.
  intros Hfree. induction a as [| c a IH]; cbn [app split].
  - rewrite Ascii.eqb_refl, (split_sep_free b Hfree). reflexivity.
  - rewrite IH. destruct (Ascii.eqb c sep); [reflexivity |].
    pose proof (split_not_nil a) as Hne.
    destruct (split sep a) as [| f fs]; [contradiction | reflexivity].
Qed.

(** Joining the fields of a split gives the text back. *)
Lemma join_split s : join [sep] (split sep s) = s.
Proof.
  induction s as [| c s IH]; [reflexivity |].
  cbn [split]. pose proof (split_not_nil s) as Hne.
  destruct (Ascii.eqb_spec c sep) as [-> | _].
  - destruct (split sep s) as [| f fs] eqn:E; [contradiction |].
    change (join [sep] ([] :: f :: fs)) with (sep :: join [sep] (f :: fs)).
    rewrite IH. reflexivity.
  - destruct (split sep s) as [| f fs] eqn:E; [contradiction |].
    rewrite <- IH. destruct fs as [| g fs]; reflexivity.
Qed.

(** Splitting the join of separator-free fields gives the fields back. *)
Lemma split_join fields :
  fields <> [] ->
  Forall (sep_free sep) fields ->
  split sep (join [sep] fields) = fields.
Proof.
  induction fields as [| f fields IH]; intros Hne Hfree; [contradiction |].
  apply Forall_cons_iff in Hfree as [Hf Hrest].
  destruct fields as [| g fields].
  - cbn [join]. apply split_sep_free. exact Hf.
  - change (join [sep] (f :: g :: fields))
      with (f ++ sep :: join [sep] (g :: fields)).
    rewrite split_first by exact Hf.
    rewrite IH; [reflexivity | discriminate | exact Hrest].
Qed.

Lemma split_cons_other c s :
  c <> sep ->
  exists f fs, split sep s = f :: fs /\ split sep (c :: s) = (c :: f) :: fs.
Proof.
  intros Hne. cbn [split].
  destruct (Ascii.eqb_spec c sep) as [E | _]; [contradiction |].
  pose proof (split_not_nil s) as Hnil.
  destruct (split sep s) as [| f fs]; [contradiction |].
  exists f, fs. split; reflexivity.
Qed.

(** A separator adds the fields on its right to those on its left. *)
Lemma split_count a b :
  List.length (split sep (a ++ sep :: b))
  = (List.length (split sep a) + List.length (split sep b))%nat.
Proof.
  induction a as [| c a IH]; cbn [app split].
  - rewrite Ascii.eqb_refl. reflexivity.
  - destruct (Ascii.eqb c sep); [cbn [List.length]; rewrite IH; reflexivity |].
    pose proof (split_not_nil a) as Ha.
    pose proof (split_not_nil (a ++ sep :: b)) as Hab.
    destruct (split sep a) as [| f fs]; [contradiction |].
    destruct (split sep (a ++ sep :: b)) as [| g gs]; [contradiction |].
    exact IH.
Qed.

Lemma sep_free_by_check s :
  PlayerctlOutput.has_byte sep s = false -> sep_free sep s.
Proof.
  unfold PlayerctlOutput.has_byte, sep_free. intros Hcheck Hin.
  assert (Htrue : existsb (Ascii.eqb sep) s = true).
  { apply existsb_exists. exists sep. split; [exact Hin |].
    apply Ascii.eqb_refl. }
  congruence.
Qed.

End SplitJoin.

(** ** Player.metadata, continued *)

Lemma is_english_app a b :
  Utils.is_english (a ++ b) = Utils.is_english a && Utils.is_english b.
Proof. apply forallb_app. Qed.

Lemma is_english_firstn k s :
  Utils.is_english s = true -> Utils.is_english (firstn k s) = true.
Proof.
  revert k. induction s as [| c s IH]; intros [| k] H; try reflexivity.
  cbn [firstn]. unfold Utils.is_english in *. cbn [forallb] in *.
  apply andb_true_iff in H as [Hc Hs]. rewrite Hc. exact (IH k Hs).
Qed.

Lemma is_english_skipn k s :
  Utils.is_english s = true -> Utils.is_english (skipn k s) = true.
Proof.
  revert k. induction s as [| c s IH]; intros [| k] H; try reflexivity;
    [exact H |].
  cbn [skipn]. unfold Utils.is_english in *. cbn [forallb] in H.
  apply andb_true_iff in H as [_ Hs]. exact (IH k Hs).
Qed.

Lemma is_english_mul_space k : Utils.is_english (mul " " k) = true.
Proof.
  unfold mul. induction (Z.to_nat k) as [| n IH]; [reflexivity |].
  cbn [repeat]. unfold Utils.is_english in *. cbn [forallb]. exact IH.
Qed.

Lemma is_english_center_text text target :
  Utils.is_english text = true ->
  Utils.is_english (Utils.center_text text target) = true.
Proof.
  intros H. unfold Utils.center_text.
  destruct (len text >=? target).
  - unfold slice_to, slice. apply is_english_firstn, is_english_skipn, H.
  - cbv zeta. rewrite !is_english_app, !is_english_mul_space, H. reflexivity.
Qed.

Lemma is_english_join sep fields :
  Utils.is_english sep = true ->
  Forall (fun f => Utils.is_english f = true) fields ->
  Utils.is_english (join sep fields) = true.
Proof.
  intros Hsep. induction fields as [| f fields IH]; intros Hall;
    [reflexivity |].
  apply Forall_cons_iff in Hall as [Hf Hrest].
  destruct fields as [| g fields]; [exact Hf |].
  change (join sep (f :: g :: fields)) with (f ++ sep ++ join sep (g :: fields)).
  rewrite !is_english_app, Hf, Hsep, (IH Hrest). reflexivity.
Qed.

(** Whatever the track, the record printed for the format of the script
    has at least 3 fields and a first field that starts with the quote of
    the format: outside strict mode the text shown starts with that quote,
    and the fallback on the URL field, which asks for an empty first field,
    is never taken. *)
Lemma metadata_record_title_quoted cfg title artist url :
  Config.english_text_only cfg = false ->
  exists rest,
    Player.interpret cfg (split "," (metadata_record title artist url))
    = "'"%char :: rest.
Proof.
  intros Hloose. unfold metadata_record.
  set (tail := title ++ ","%char :: artist ++ ","%char :: url
               ++ [PlayerctlOutput.newline]).
  destruct (split_cons_other ","%char "'"%char tail ltac:(discriminate))
    as (f & fs & Htail & Hsplit).
  rewrite Hsplit.
  assert (Hcount : (2 <= List.length fs)%nat).
  { assert (Hlen : List.length (split "," tail) = S (List.length fs))
      by (rewrite Htail; reflexivity).
    unfold tail in Hlen. rewrite !split_count in Hlen.
    pose proof (split_not_nil ","%char title) as H1.
    pose proof (split_not_nil ","%char artist) as H2.
    pose proof (split_not_nil ","%char (url ++ [PlayerctlOutput.newline]))
      as H3.
    destruct (split "," title); [contradiction |].
    destruct (split "," artist); [contradiction |].
    destruct (split "," (url ++ [PlayerctlOutput.newline]));
      [contradiction |].
    cbn [List.length] in Hlen. lia. }
  unfold Player.interpret.
  match goal with
  | |- context [?n <? 3] => destruct (Z.ltb_spec n 3) as [Hshort | _]
  end.
  - exfalso. unfold len in Hshort. cbn [List.length] in Hshort. lia.
  - rewrite Hloose.
    assert (E : str_eqb ("'"%char :: f) [] = false)
      by (apply str_eqb_neq; discriminate).
    rewrite E. cbn [negb app]. eexists. reflexivity.
Qed.

(** X11: in strict mode ([english_text_only]) with an ASCII error text,
    whatever [playerctl] prints, the metadata text is ASCII. *)
Theorem metadata_english_only w self :
  Config.english_text_only (Player.config self) = true ->
  Utils.is_english (Config.error_text (Player.config self)) = true ->
  Utils.is_english (Player.metadata w self) = true.
Proof.
  intros Hstrict Herr. unfold Player.metadata.
  destruct (Player.exists_ w self); cbn [negb]; [| reflexivity].
  unfold Player.interpret.
  set (fields := split "," _).
  destruct (len fields <? 3); [apply is_english_center_text, Herr |].
  destruct fields as [| title rest]; [apply is_english_center_text, Herr |].
  rewrite Hstrict. cbv zeta.
  rewrite !is_english_app. apply andb_true_iff. split.
  - destruct (Utils.is_english
                (if negb (str_eqb title []) then title else last rest []))
      eqn:E; [exact E | exact Herr].
  - apply andb_true_iff. split; [reflexivity |].
    apply is_english_join; [reflexivity |].
    apply Forall_forall. intros a Ha. apply in_map_iff in Ha as (b & <- & _).
    destruct (Utils.is_english b) eqn:E; [exact E | exact Herr].
Qed.

Lemma metadata_english_only_witness :
  let strict := {| Config.scrolling_msg_len := 15;
                   Config.english_text_only := true;
                   Config.default_text := lit "default text";
                   Config.error_text := lit "error text" |} in
  Utils.is_english
    (Player.metadata
       {| Playerctl.available_players := [lit "vlc"];
          Playerctl.status := fun _ => lit "Playing";
          Playerctl.metadata_output :=
            fun _ => [ascii_of_nat 233; ","%char; "b"%char; ","%char;
                      "c"%char] |}
       (Player.init 0 (lit "vlc") strict))
  = true.
Proof.
  cbv zeta.
  apply (metadata_english_only
           {| Playerctl.available_players := [lit "vlc"];
              Playerctl.status := fun _ => lit "Playing";
              Playerctl.metadata_output :=
                fun _ => [ascii_of_nat 233; ","%char; "b"%char; ","%char;
                          "c"%char] |}
           (Player.init 0 (lit "vlc")
              {| Config.scrolling_msg_len := 15;
                 Config.english_text_only := true;
                 Config.default_text := lit "default text";
                 Config.error_text := lit "error text" |}));
    reflexivity.
Defined.

(** X12: for an existing player whose record is a title without comma, a
    comma, any text, a comma and a URL without comma, and outside strict
    mode, the metadata is the title, [" - "], and the text between the first
    and the last comma as it stands: several artists stay separated by their
    commas. *)
Theorem metadata_artists_verbatim w self title artists url :
  Player.exists_ w self = true ->
  Config.english_text_only (Player.config self) = false ->
  Playerctl.metadata_output w (Player.player_name self)
  = title ++ ","%char :: artists ++ ","%char :: url ->
  sep_free "," title ->
  sep_free "," url ->
  title <> [] ->
  Player.metadata w self = title ++ lit " - " ++ artists.
Proof.
  intros Hex Hloose Hrec Htitle Hurl Hne.
  rewrite (metadata_of_existing w self Hex), Hrec.
  rewrite (split_first ","%char title _ Htitle),
    (split_last ","%char artists url Hurl).
  unfold Player.interpret.
  match goal with
  | |- context [?n <? 3] => destruct (Z.ltb_spec n 3) as [Hshort | _]
  end.
  - exfalso. pose proof (split_not_nil ","%char artists) as Hsp.
    unfold len in Hshort. cbn [List.length] in Hshort.
    rewrite length_app in Hshort. cbn [List.length] in Hshort.
    destruct (split "," artists); [contradiction |].
    cbn [List.length] in Hshort. lia.
  - rewrite Hloose, removelast_last.
    assert (E : str_eqb title [] = false) by (apply str_eqb_neq; exact Hne).
    rewrite E. cbn [negb].
    change (lit ",") with [","%char]. rewrite join_split. reflexivity.
Qed.

Lemma metadata_artists_verbatim_witness :
  Player.metadata
    (Sample.world ["vlc"%string] "Song,Artist One,Artist Two,file:///x.mp3")
    Sample.vlc
  = lit "Song - Artist One,Artist Two".
Proof.
  apply (metadata_artists_verbatim
           (Sample.world ["vlc"%string]
              "Song,Artist One,Artist Two,file:///x.mp3")
           Sample.vlc (lit "Song") (lit "Artist One,Artist Two")
           (lit "file:///x.mp3")); try reflexivity.
  - apply sep_free_by_check. reflexivity.
  - apply sep_free_by_check. reflexivity.
  - discriminate.
Defined.

(** ** Utils.clean_track_title *)

Lemma re_sub_pct20_step c c1 c2 t :
  Utils.re_sub_pct20 (c :: c1 :: c2 :: t)
  = if (Ascii.eqb c "%" && Ascii.eqb c1 "2" && Ascii.eqb c2 "0")%bool
    then " "%char :: Utils.re_sub_pct20 t
    else c :: Utils.re_sub_pct20 (c1 :: c2 :: t).
Proof. reflexivity. Qed.

(** The first character of a rewritten text is the first character of the
    text, or the space that stands for a [%20]. *)
Lemma re_sub_pct20_head x rest :
  exists tl,
    Utils.re_sub_pct20 (x :: rest) = x :: tl
    \/ Utils.re_sub_pct20 (x :: rest) = " "%char :: tl.
Proof.
  destruct rest as [| c1 [| c2 t]]; [eexists; left; reflexivity .. |].
  rewrite re_sub_pct20_step.
  destruct (Ascii.eqb x "%" && Ascii.eqb c1 "2" && Ascii.eqb c2 "0")%bool;
    eexists; [right | left]; reflexivity.
Qed.

Ltac unfold_pattern :=
  cbn [lit list_ascii_of_string starts_with has_infix Utils.re_sub_pct20].

Lemma re_sub_pct20_starts_20 c1 c2 t :
  starts_with (lit "20") (Utils.re_sub_pct20 (c1 :: c2 :: t)) = true ->
  c1 = "2"%char /\ c2 = "0"%char.
Proof.
  destruct t as [| c3 t].
  - unfold_pattern. intros H. apply andb_true_iff in H as [H1 H2].
    apply andb_true_iff in H2 as [H2 _].
    apply Ascii.eqb_eq in H1, H2. split; congruence.
  - rewrite re_sub_pct20_step.
    destruct (Ascii.eqb c1 "%" && Ascii.eqb c2 "2" && Ascii.eqb c3 "0")%bool.
    + unfold_pattern. intros H. apply andb_true_iff in H as [H1 _].
      apply Ascii.eqb_eq in H1. discriminate H1.
    + destruct (re_sub_pct20_head c2 (c3 :: t)) as (tl & [-> | ->]);
        unfold_pattern; intros H; apply andb_true_iff in H as [H1 H2];
        apply andb_true_iff in H2 as [H2 _];
        apply Ascii.eqb_eq in H1, H2; [split; congruence | discriminate H2].
Qed.

Lemma has_infix_cons pat c s :
  has_infix pat (c :: s) = starts_with pat (c :: s) || has_infix pat s.
Proof. reflexivity. Qed.

Lemma re_sub_pct20_no_pct20 n :
  forall s, (List.length s <= n)%nat ->
            has_infix (lit "%20") (Utils.re_sub_pct20 s) = false.
Proof.
  induction n as [| n IH]; intros s Hlen.
  - destruct s; [reflexivity | simpl in Hlen; lia].
  - destruct s as [| c [| c1 [| c2 t]]].
    + reflexivity.
    + unfold_pattern. destruct (Ascii.eqb "%" c); reflexivity.
    + unfold_pattern.
      destruct (Ascii.eqb "%" c), (Ascii.eqb "2" c1), (Ascii.eqb "%" c1);
        reflexivity.
    + rewrite re_sub_pct20_step.
      destruct (Ascii.eqb c "%" && Ascii.eqb c1 "2" && Ascii.eqb c2 "0")%bool
        eqn:Hmatch; rewrite has_infix_cons.
      * rewrite IH by (simpl in Hlen |- *; lia). reflexivity.
      * rewrite IH by (simpl in Hlen |- *; lia). rewrite orb_false_r.
        destruct (starts_with (lit "%20")
                    (c :: Utils.re_sub_pct20 (c1 :: c2 :: t))) eqn:Hstart;
          [| reflexivity].
        exfalso. cbn [lit list_ascii_of_string starts_with] in Hstart.
        apply andb_true_iff in Hstart as [Hc Hrest].
        apply Ascii.eqb_eq in Hc. subst c.
        destruct (re_sub_pct20_starts_20 c1 c2 t Hrest) as [-> ->].
        discriminate Hmatch.
Qed.

Lemma re_sub_pct20_chars n :
  forall s x, (List.length s <= n)%nat ->
              In x (Utils.re_sub_pct20 s) -> x = " "%char \/ In x s.
Proof.
  induction n as [| n IH]; intros s x Hlen Hin.
  - destruct s; [contradiction | simpl in Hlen; lia].
  - destruct s as [| c [| c1 [| c2 t]]]; try (right; exact Hin).
    rewrite re_sub_pct20_step in Hin.
    destruct (Ascii.eqb c "%" && Ascii.eqb c1 "2" && Ascii.eqb c2 "0")%bool.
    + destruct Hin as [<- | Hin]; [left; reflexivity |].
      destruct (IH t x ltac:(simpl in Hlen |- *; lia) Hin) as [-> | Ht];
        [left; reflexivity | right; auto using in_cons].
    + destruct Hin as [<- | Hin]; [right; left; reflexivity |].
      destruct (IH (c1 :: c2 :: t) x ltac:(simpl in Hlen |- *; lia) Hin)
        as [-> | Ht]; [left; reflexivity | right; right; exact Ht].
Qed.

Lemma split_fields_sep_free sep s : Forall (sep_free sep) (split sep s).
Proof.
  induction s as [| c s IH]; cbn [split].
  - constructor; [intros [] | constructor].
  - destruct (Ascii.eqb_spec c sep) as [-> | Hne].
    + constructor; [intros [] | exact IH].
    + destruct (split sep s) as [| f fs]; [constructor; [| constructor] |].
      * intros [Heq | []]. congruence.
      * apply Forall_cons_iff in IH as [Hf Hfs]. constructor; [| exact Hfs].
        intros [Heq | Hin]; [congruence | exact (Hf Hin)].
Qed.

(** X13: a cleaned track title holds no ["/"] and no ["%20"]. *)
Theorem clean_track_title_clean title :
  sep_free "/" (Utils.clean_track_title title)
  /\ has_infix (lit "%20") (Utils.clean_track_title title) = false.
Proof.
  unfold Utils.clean_track_title. split.
  - intros Hin.
    apply (re_sub_pct20_chars _ _ _ (Nat.le_refl _)) in Hin
      as [Hspace | Hin]; [discriminate Hspace |].
    pose proof (split_fields_sep_free "/" title) as Hall.
    pose proof (split_not_nil "/"%char title) as Hne.
    unfold last_field in Hin.
    rewrite Forall_forall in Hall.
    apply (Hall (last (split "/" title) [])); [| exact Hin].
    rewrite (app_removelast_last [] Hne) at 2.
    apply in_or_app. right. left. reflexivity.
  - apply (re_sub_pct20_no_pct20 _ _ (Nat.le_refl _)).
Qed.

Lemma re_sub_pct20_plain s :
  sep_free "%" s -> Utils.re_sub_pct20 s = s.
Proof.
  induction s as [| c s IH]; intros Hfree; [reflexivity |].
  assert (Hc : Ascii.eqb c "%" = false).
  { apply Ascii.eqb_neq. intros ->. apply Hfree. left. reflexivity. }
  assert (Hs : Utils.re_sub_pct20 s = s).
  { apply IH. intros Hin. apply Hfree. right. exact Hin. }
  destruct s as [| c1 [| c2 t]]; try reflexivity.
  rewrite re_sub_pct20_step, Hc, Hs. reflexivity.
Qed.

(** X14: a title with no ["/"] and no ["%"] is left as it is. *)
Theorem clean_track_title_plain title :
  sep_free "/" title ->
  sep_free "%" title ->
  Utils.clean_track_title title = title.
Proof.
  intros Hslash Hpct. unfold Utils.clean_track_title, last_field.
  rewrite (split_sep_free "/"%char title Hslash). cbn [last].
  apply re_sub_pct20_plain. exact Hpct.
Qed.

Lemma clean_track_title_plain_witness :
  Utils.clean_track_title (lit "Song Title") = lit "Song Title".
Proof.
  apply (clean_track_title_plain (lit "Song Title"));
    apply sep_free_by_check; reflexivity.
Defined.

(** ** The markup helpers and Player.icon *)

Lemma dict_get_absent {V} (d : list (str * V)) key (default : V) :
  ~ In key (map fst d) -> Markup.dict_get d key default = default.
Proof.
  induction d as [| [k v] d IH]; intros Habsent; [reflexivity |].
  cbn [Markup.dict_get].
  destruct (str_eqb k key) eqn:E.
  - apply str_eqb_eq in E. exfalso. apply Habsent. left. exact E.
  - apply IH. intros Hin. apply Habsent. right. exact Hin.
Qed.

(** X15: a trigger that is not one of the eight known ones gives the markup
    of a left click. *)
Theorem actionize_string_unknown_trigger str_to_action command trigger :
  ~ In trigger (map fst Markup.trigger_mapping) ->
  Markup.actionize_string str_to_action command trigger
  = Markup.actionize_string str_to_action command (lit "left click").
Proof.
  intros Hunknown. unfold Markup.actionize_string.
  rewrite (dict_get_absent _ _ _ Hunknown). reflexivity.
Qed.

Lemma actionize_string_unknown_trigger_witness :
  Markup.actionize_string (lit "text") (lit "kill -10 42") (lit "triple click")
  = lit "%{A1:kill -10 42:}text%{A}".
Proof.
  rewrite (actionize_string_unknown_trigger (lit "text") (lit "kill -10 42")
             (lit "triple click")); [reflexivity |].
  apply contains_not_In. reflexivity.
Defined.

(** X16: the icon of a player named [program.instance] is that of
    [program] alone: a [ValueError] when [program] has fewer than 2
    characters, the default icon when the table has no entry for it, and in
    every case what a player named just [program] gets. *)
Theorem icon_by_program theme self other program instance :
  sep_free "." program ->
  Player.player_name self = program ++ "."%char :: instance ->
  Player.player_name other = program ->
  PlayerIcon.icon theme self = PlayerIcon.icon theme other
  /\ (len program < 2 -> PlayerIcon.icon theme self = Raise ValueError)
  /\ (2 <= len program ->
      ~ In program (map fst (Theme.player_icons theme)) ->
      PlayerIcon.icon theme self
      = Ok (Markup.colorize_string (Theme.default_icon theme)
              (Theme.color theme))).
Proof.
  intros Hfree Hself Hother.
  assert (Hprog : forall p,
            Player.player_name p = program \/
            Player.player_name p = program ++ "."%char :: instance ->
            hd [] (split "." (Player.player_name p)) = program).
  { intros p [-> | ->].
    - rewrite (split_sep_free "."%char program Hfree). reflexivity.
    - rewrite (split_first "."%char program instance Hfree). reflexivity. }
  unfold PlayerIcon.icon. cbv zeta.
  rewrite (Hprog self (or_intror Hself)), (Hprog other (or_introl Hother)).
  split; [reflexivity |]. split.
  - intros Hshort. destruct (Z.ltb_spec (len program) 2); [reflexivity | lia].
  - intros Hlong Hunknown.
    destruct (Z.ltb_spec (len program) 2); [lia |].
    rewrite (dict_get_absent _ _ _ Hunknown). reflexivity.
Qed.

Lemma icon_by_program_witness :
  let theme := {| Theme.color := lit "#000000";
                  Theme.default_icon := lit "D";
                  Theme.player_icons := [(lit "default", lit "D");
                                         (lit "vlc", lit "V")] |} in
  PlayerIcon.icon theme (Sample.player 3 "firefox.instance_1_42")
  = Ok (lit "%{F#000000} D %{F-}").
Proof.
  cbv zeta.
  destruct (icon_by_program
              {| Theme.color := lit "#000000";
                 Theme.default_icon := lit "D";
                 Theme.player_icons := [(lit "default", lit "D");
                                        (lit "vlc", lit "V")] |}
              (Sample.player 3 "firefox.instance_1_42") Sample.firefox
              (lit "firefox") (lit "instance_1_42")
              ltac:(apply sep_free_by_check; reflexivity) eq_refl eq_refl)
    as (_ & _ & Hdefault).
  rewrite Hdefault; [reflexivity | vm_compute; discriminate |].
  apply contains_not_In. reflexivity.
Defined.

(** ** Player.get_available_players on the bytes of playerctl *)

Lemma repr_byte_not_nil quote c : PlayerctlOutput.repr_byte quote c <> [].
Proof.
  unfold PlayerctlOutput.repr_byte. cbv zeta.
  repeat match goal with
         | |- (if ?b then _ else _) <> _ => destruct b
         end; discriminate.
Qed.

Lemma len_bytes_repr b :
  b <> [] -> 3 < len (PlayerctlOutput.bytes_repr b).
Proof.
  intros Hne. unfold PlayerctlOutput.bytes_repr. cbv zeta.
  destruct b as [| c b]; [contradiction |].
  cbn [flat_map]. unfold len. cbn [List.length].
  rewrite !length_app. cbn [List.length].
  pose proof (repr_byte_not_nil (PlayerctlOutput.quote_of (c :: b)) c) as Hc.
  destruct (PlayerctlOutput.repr_byte (PlayerctlOutput.quote_of (c :: b)) c);
    [contradiction |].
  cbn [List.length]. lia.
Qed.

(** On ASCII bytes decoding changes nothing. *)
Lemma decode_ascii b :
  Utils.is_english b = true -> PlayerctlOutput.decode b = Some b.
Proof.
  induction b as [| c b IH]; intros Hascii; [reflexivity |].
  unfold Utils.is_english in Hascii. cbn [forallb] in Hascii.
  apply andb_true_iff in Hascii as [Hc Hb].
  cbn [PlayerctlOutput.decode]. cbv zeta. rewrite Hc, (IH Hb). reflexivity.
Qed.

(** X17: the list of players is empty in exactly two cases: [playerctl]
    printed nothing, or the [repr] of what it printed holds
    ["No players found"].  Every other output that decodes to a text of
    characters below 256, so every other ASCII output, gives a list of at
    least one name. *)
Theorem get_available_players_empty players_bytes :
  (PlayerctlOutput.get_available_players players_bytes = Some []
   <-> players_bytes = []
       \/ has_infix (lit "No players found")
            (PlayerctlOutput.bytes_repr players_bytes) = true)
  /\ (players_bytes <> [] ->
      has_infix (lit "No players found")
        (PlayerctlOutput.bytes_repr players_bytes) = false ->
      forall text,
        PlayerctlOutput.decode players_bytes = Some text ->
        exists name rest,
          PlayerctlOutput.get_available_players players_bytes
          = Some (name :: rest))
  /\ (Utils.is_english players_bytes = true ->
      PlayerctlOutput.decode players_bytes = Some players_bytes).
Proof.
  split; [| split].
  - unfold PlayerctlOutput.get_available_players. split.
    + destruct (has_infix (lit "No players found")
                  (PlayerctlOutput.bytes_repr players_bytes));
        [right; reflexivity |].
      destruct players_bytes as [| c b]; [left; reflexivity |].
      pose proof (len_bytes_repr (c :: b) ltac:(discriminate)) as Hlen.
      destruct (Z.leb_spec (len (PlayerctlOutput.bytes_repr (c :: b))) 3);
        [lia |].
      cbn [orb]. destruct (PlayerctlOutput.decode (c :: b)) as [text |];
        [| discriminate].
      cbn [option_map]. intros [= Hsplit].
      exfalso. exact (split_not_nil _ _ Hsplit).
    + intros [-> | ->]; reflexivity.
  - intros Hne Hphrase text Hdecode.
    unfold PlayerctlOutput.get_available_players.
    rewrite Hphrase, Hdecode.
    pose proof (len_bytes_repr players_bytes Hne) as Hlen.
    destruct (Z.leb_spec (len (PlayerctlOutput.bytes_repr players_bytes)) 3);
      [lia |].
    cbn [orb option_map].
    pose proof (split_not_nil PlayerctlOutput.newline
                  (PlayerctlOutput.rstrip text)) as Hsplit.
    destruct (split PlayerctlOutput.newline (PlayerctlOutput.rstrip text))
      as [| name rest]; [contradiction |].
    exists name, rest. reflexivity.
  - apply decode_ascii.
Qed.

Lemma get_available_players_empty_witness :
  exists name rest,
    PlayerctlOutput.get_available_players
      (lit "caf" ++ [ascii_of_nat 195; ascii_of_nat 169;
                     PlayerctlOutput.newline])
    = Some (name :: rest).
Proof.
  apply (proj1 (proj2 (get_available_players_empty
                         (lit "caf" ++ [ascii_of_nat 195; ascii_of_nat 169;
                                        PlayerctlOutput.newline])))
           ltac:(discriminate) eq_refl
           (lit "caf" ++ [ascii_of_nat 233; PlayerctlOutput.newline])).
  reflexivity.
Defined.

Lemma join_ends_with_last sep names :
  names <> [] -> exists pre, join sep names = pre ++ last names [].
Proof.
  induction names as [| n names IH]; intros Hne; [contradiction |].
  destruct names as [| m names].
  - exists []. reflexivity.
  - destruct (IH ltac:(discriminate)) as (pre & Hpre).
    exists (n ++ sep ++ pre).
    change (join sep (n :: m :: names)) with (n ++ sep ++ join sep (m :: names)).
    rewrite Hpre, <- !app_assoc. reflexivity.
Qed.

Lemma rstrip_line text :
  ends_with_text text ->
  PlayerctlOutput.rstrip (text ++ [PlayerctlOutput.newline]) = text.
Proof.
  intros (t & c & -> & Hc). unfold PlayerctlOutput.rstrip.
  rewrite !rev_app_distr. cbn [rev app PlayerctlOutput.lstrip].
  change (PlayerctlOutput.is_space PlayerctlOutput.newline) with true.
  cbn [PlayerctlOutput.lstrip]. rewrite Hc.
  cbn [rev]. rewrite rev_involutive. reflexivity.
Qed.

(** X18: round trip.  When [playerctl -l] prints one name per line, the
    names being ASCII and free of newlines, the last one ending in a
    character that is not white space, and the whole not holding
    ["No players found"], the function returns exactly those names, in
    order. *)
Theorem get_available_players_lines names :
  names <> [] ->
  Forall (fun name => sep_free PlayerctlOutput.newline name
                      /\ Utils.is_english name = true) names ->
  ends_with_text (last names []) ->
  has_infix (lit "No players found")
    (PlayerctlOutput.bytes_repr (lines names)) = false ->
  PlayerctlOutput.get_available_players (lines names) = Some names.
Proof.
  intros Hne Hnames Hlast Hphrase.
  unfold PlayerctlOutput.get_available_players. rewrite Hphrase.
  assert (Hout : lines names <> []).
  { unfold lines. intros E. apply app_eq_nil in E as [_ E]. discriminate E. }
  pose proof (len_bytes_repr _ Hout) as Hlen.
  destruct (Z.leb_spec (len (PlayerctlOutput.bytes_repr (lines names))) 3);
    [lia |].
  cbn [orb].
  assert (Hascii : Utils.is_english (lines names) = true).
  { unfold lines. rewrite is_english_app. apply andb_true_iff.
    split; [| reflexivity].
    apply is_english_join; [reflexivity |].
    apply Forall_forall. intros n Hn.
    rewrite Forall_forall in Hnames. apply (Hnames n Hn). }
  assert (Hdecode : PlayerctlOutput.decode (lines names) = Some (lines names))
    by (apply decode_ascii; exact Hascii).
  rewrite Hdecode. cbn [option_map]. f_equal.
  unfold lines. rewrite rstrip_line.
  - apply split_join; [exact Hne |].
    apply Forall_forall. intros n Hn.
    rewrite Forall_forall in Hnames. apply (Hnames n Hn).
  - destruct (join_ends_with_last [PlayerctlOutput.newline] names Hne)
      as (pre & ->).
    destruct Hlast as (t & c & -> & Hc).
    exists (pre ++ t), c. split; [rewrite app_assoc; reflexivity | exact Hc].
Qed.

Lemma get_available_players_lines_witness :
  PlayerctlOutput.get_available_players
    (lines [lit "vlc"; lit "firefox.instance_1_42"])
  = Some [lit "vlc"; lit "firefox.instance_1_42"].
Proof.
  apply (get_available_players_lines [lit "vlc"; lit "firefox.instance_1_42"]).
  - discriminate.
  - repeat constructor; apply sep_free_by_check; reflexivity.
  - exists (lit "firefox.instance_1_4"), "2"%char. split; reflexivity.
  - reflexivity.
Defined.

(** ** PolyPlay._update_player_list, for every input *)

Lemma Subseq_refl {A} (l : list A) : Subseq l l.
Proof. induction l; constructor; assumption. Qed.

Lemma Subseq_trans {A} (l1 l2 l3 : list A) :
  Subseq l1 l2 -> Subseq l2 l3 -> Subseq l1 l3.
Proof.
  intros H12 H23. revert l1 H12.
  induction H23 as [| x l2 l3 H23 IH | x l2 l3 H23 IH]; intros l1 H12.
  - exact H12.
  - constructor. apply IH, H12.
  - inversion H12; subst.
    + constructor. apply IH. assumption.
    + apply Subseq_keep. apply IH. assumption.
Qed.

Lemma Subseq_In {A} (l l' : list A) x : Subseq l l' -> In x l -> In x l'.
Proof.
  induction 1 as [| y l l' H IH | y l l' H IH]; intros Hin.
  - exact Hin.
  - right. apply IH, Hin.
  - destruct Hin as [-> | Hin]; [left; reflexivity | right; apply IH, Hin].
Qed.

Lemma Subseq_Forall {A} (P : A -> Prop) (l l' : list A) :
  Subseq l l' -> Forall P l' -> Forall P l.
Proof.
  intros Hsub Hall. apply Forall_forall. intros x Hx.
  rewrite Forall_forall in Hall. apply Hall, (Subseq_In _ _ _ Hsub Hx).
Qed.

Lemma Subseq_map {A B} (f : A -> B) (l l' : list A) :
  Subseq l l' -> Subseq (map f l) (map f l').
Proof. induction 1; cbn [map]; constructor; assumption. Qed.

Lemma Subseq_NoDup {A} (l l' : list A) : Subseq l l' -> NoDup l' -> NoDup l.
Proof.
  induction 1 as [| y l l' H IH | y l l' H IH]; intros Hnd.
  - exact Hnd.
  - apply NoDup_cons_iff in Hnd as [_ Hnd]. apply IH, Hnd.
  - apply NoDup_cons_iff in Hnd as [Hy Hnd]. constructor; [| apply IH, Hnd].
    intros Hin. apply Hy, (Subseq_In _ _ _ H Hin).
Qed.

Lemma remove_player_subseq x l l' :
  PolyPlay.remove_player x l = Ok l' -> Subseq l' l.
Proof.
  revert l'. induction l as [| y l IH]; intros l' Hrem; [discriminate Hrem |].
  cbn [PolyPlay.remove_player] in Hrem.
  destruct (Player.same y x).
  - injection Hrem as <-. constructor. apply Subseq_refl.
  - destruct (PolyPlay.remove_player x l) as [l0 | e]; [| discriminate Hrem].
    cbn [bind] in Hrem. injection Hrem as <-.
    apply Subseq_keep. apply IH. reflexivity.
Qed.

Lemma remove_name_incl x l l' :
  PolyPlay.remove_name x l = Ok l' -> forall n, In n l' -> In n l.
Proof.
  unfold PolyPlay.remove_name. revert l'.
  induction l as [| y l IH]; intros l' Hrem; [discriminate Hrem |].
  cbn [Py.remove] in Hrem. destruct (str_eqb y x).
  - injection Hrem as <-. intros n Hn. right. exact Hn.
  - destruct (Py.remove x l) as [l0 |]; [| discriminate Hrem].
    cbn [option_map] in Hrem. injection Hrem as <-.
    intros n [-> | Hn]; [left; reflexivity | right].
    apply (IH l0 eq_refl n Hn).
Qed.

(** The first loop only takes entries out, of both lists. *)
Lemma prune_subseq fuel :
  forall i player_list new_list player_list' new_list',
    PolyPlay.prune fuel i player_list new_list
    = Ok (player_list', new_list') ->
    Subseq player_list' player_list
    /\ (forall n, In n new_list' -> In n new_list).
Proof.
  induction fuel as [| fuel IH]; intros i pl nl pl' nl' Hrun;
    rewrite prune_unfold in Hrun.
  - destruct (nth_error pl i); [discriminate Hrun |].
    injection Hrun as <- <-. split; [apply Subseq_refl | auto].
  - destruct (nth_error pl i) as [x |].
    2:{ injection Hrun as <- <-. split; [apply Subseq_refl | auto]. }
    cbv zeta in Hrun.
    destruct (contains (Player.player_name x) nl); cbn [negb bind] in Hrun.
    + destruct (PolyPlay.remove_name (Player.player_name x) nl) as [nl1 | e]
        eqn:Hrem; [| discriminate Hrun].
      cbn [bind] in Hrun. destruct (IH _ _ _ _ _ Hrun) as [Hsub Hincl].
      split; [exact Hsub |].
      intros n Hn. apply (remove_name_incl _ _ _ Hrem), Hincl, Hn.
    + destruct (PolyPlay.remove_player x pl) as [pl1 | e] eqn:Hrem;
        [| discriminate Hrun].
      cbn [bind] in Hrun. destruct (IH _ _ _ _ _ Hrun) as [Hsub Hincl].
      split; [| exact Hincl].
      apply (Subseq_trans _ _ _ Hsub), (remove_player_subseq _ _ _ Hrem).
Qed.

(** The first loop only strikes names of tracked players off the new
    list. *)
Lemma prune_keeps_untracked fuel :
  forall i player_list new_list player_list' new_list',
    PolyPlay.prune fuel i player_list new_list
    = Ok (player_list', new_list') ->
    forall n, In n new_list ->
              ~ In n (map Player.player_name player_list) ->
              In n new_list'.
Proof.
  induction fuel as [| fuel IH]; intros i pl nl pl' nl' Hrun n Hn Huntracked;
    rewrite prune_unfold in Hrun.
  - destruct (nth_error pl i); [discriminate Hrun |].
    injection Hrun as <- <-. exact Hn.
  - destruct (nth_error pl i) as [x |] eqn:Hx.
    2:{ injection Hrun as <- <-. exact Hn. }
    cbv zeta in Hrun.
    assert (Hne : n <> Player.player_name x).
    { intros ->. apply Huntracked, in_map, (nth_error_In _ _ Hx). }
    destruct (contains (Player.player_name x) nl) eqn:Hc;
      cbn [negb bind] in Hrun.
    + destruct (remove_name_present _ _ (proj1 (contains_In _ _) Hc))
        as (nl1 & Hrem & _ & Hkeep).
      rewrite Hrem in Hrun. cbn [bind] in Hrun.
      apply (IH _ _ _ _ _ Hrun n (Hkeep n Hne Hn) Huntracked).
    + destruct (PolyPlay.remove_player x pl) as [pl1 | e] eqn:Hrem;
        [| discriminate Hrun].
      cbn [bind] in Hrun.
      apply (IH _ _ _ _ _ Hrun n Hn).
      intros Hin. apply Huntracked.
      apply (Subseq_In _ _ _
               (Subseq_map Player.player_name _ _
                  (remove_player_subseq _ _ _ Hrem)) Hin).
Qed.

(** The second loop in full: what it appends and what it leaves alone. *)
Lemma discover_fold w new_list :
  forall self,
    let self' := fold_left (PolyPlay.discover w) new_list self in
    exists added,
      PolyPlay.player_list self' = PolyPlay.player_list self ++ added
      /\ map Player.player_name added
         = filter (fun n => negb (stopped_on_discovery w n)) new_list
      /\ Forall (newly_built (PolyPlay.config self)) added
      /\ Forall (fun p => (PolyPlay.fresh self <= Player.oid p
                           < PolyPlay.fresh self')%nat) added
      /\ NoDup (map Player.oid added)
      /\ (PolyPlay.fresh self <= PolyPlay.fresh self')%nat
      /\ PolyPlay.config self' = PolyPlay.config self
      /\ PolyPlay.display_index self' = PolyPlay.display_index self.
Proof.
  induction new_list as [| n nl IH]; intros self; cbv zeta;
    cbn [fold_left filter].
  - exists []. rewrite app_nil_r. repeat split; try constructor.
  - destruct (IH (PolyPlay.discover w self n))
      as (added & Hlist & Hnames & Hbuilt & Hoids & Hnd & Hfresh & Hcfg & Hidx).
    cbv zeta in Hoids, Hfresh.
    set (self' := fold_left (PolyPlay.discover w) nl
                    (PolyPlay.discover w self n)) in *.
    assert (Hstep :
      PolyPlay.fresh (PolyPlay.discover w self n) = S (PolyPlay.fresh self)
      /\ PolyPlay.config (PolyPlay.discover w self n) = PolyPlay.config self
      /\ PolyPlay.display_index (PolyPlay.discover w self n)
         = PolyPlay.display_index self
      /\ PolyPlay.player_list (PolyPlay.discover w self n)
         = PolyPlay.player_list self
           ++ (if stopped_on_discovery w n then []
               else [Player.init (PolyPlay.fresh self) n
                       (PolyPlay.config self)])).
    { unfold PolyPlay.discover.
      change (Player.is_stopped w
                (Player.init (PolyPlay.fresh self) n (PolyPlay.config self)))
        with (stopped_on_discovery w n).
      destruct (stopped_on_discovery w n); simpl_self;
        rewrite ?app_nil_r; auto. }
    destruct Hstep as (Hf1 & Hc1 & Hi1 & Hl1).
    rewrite Hf1 in Hoids, Hfresh. rewrite Hc1 in Hcfg, Hbuilt.
    rewrite Hi1 in Hidx. rewrite Hl1, <- app_assoc in Hlist.
    assert (Hoids' : Forall (fun p => (PolyPlay.fresh self <= Player.oid p
                                       < PolyPlay.fresh self')%nat) added).
    { apply Forall_forall. intros p Hp. rewrite Forall_forall in Hoids.
      specialize (Hoids p Hp). lia. }
    destruct (stopped_on_discovery w n); cbn [negb].
    + exists added. cbn [app] in Hlist.
      repeat split; try assumption. lia.
    + exists (Player.init (PolyPlay.fresh self) n (PolyPlay.config self)
              :: added).
      cbn [app] in Hlist. cbn [map Player.init Player.player_name Player.oid].
      repeat split; try assumption.
      * rewrite Hnames. reflexivity.
      * constructor; [repeat split | exact Hbuilt].
      * constructor; [cbn [Player.oid Player.init]; lia | exact Hoids'].
      * constructor; [| exact Hnd].
        intros Hin. apply in_map_iff in Hin as (p & Hp & Hin).
        cbn [Player.oid Player.init] in Hp.
        rewrite Forall_forall in Hoids. specialize (Hoids p Hin). lia.
      * lia.
Qed.

(** Reconciliation in full, for every registry and every world. *)
Lemma update_player_list_anatomy w self :
  exists self' kept unclaimed added,
    PolyPlay._update_player_list w self = Ok self'
    /\ PolyPlay.player_list self' = kept ++ added
    /\ Subseq kept (PolyPlay.player_list self)
    /\ (forall n, In n unclaimed -> In n (Player.get_available_players w))
    /\ map Player.player_name added
       = filter (fun n => negb (stopped_on_discovery w n)) unclaimed
    /\ Forall (newly_built (PolyPlay.config self)) added
    /\ Forall (fun p => (PolyPlay.fresh self <= Player.oid p
                         < PolyPlay.fresh self')%nat) added
    /\ NoDup (map Player.oid added)
    /\ (PolyPlay.fresh self <= PolyPlay.fresh self')%nat
    /\ PolyPlay.config self' = PolyPlay.config self
    /\ PolyPlay.display_index self' = PolyPlay.display_index self
    /\ (len (Player.get_available_players w)
        <> len (PolyPlay.player_list self) ->
        forall n, In n (Player.get_available_players w) ->
                  ~ In n (map Player.player_name (PolyPlay.player_list self)) ->
                  In n unclaimed).
Proof.
  unfold PolyPlay._update_player_list. cbv zeta.
  destruct (Z.eqb_spec (len (Player.get_available_players w))
              (len (PolyPlay.player_list self))) as [Hsame | Hdiffer];
    cbn [negb].
  { exists self, (PolyPlay.player_list self), [], [].
    rewrite app_nil_r. repeat split; try constructor; try contradiction.
    apply Subseq_refl. }
  destruct (prune_returns (List.length (PolyPlay.player_list self)) 0
              (PolyPlay.player_list self) (Player.get_available_players w)
              ltac:(lia)) as ([kept nl'] & Hrun).
  rewrite Hrun. cbn [bind fst snd].
  destruct (prune_subseq _ _ _ _ _ _ Hrun) as [Hsub Hincl].
  pose proof (prune_keeps_untracked _ _ _ _ _ _ Hrun) as Huntracked.
  destruct (discover_fold w nl' (PolyPlay.set_player_list self kept))
    as (added & Hlist & Hnames & Hbuilt & Hoids & Hnd & Hfresh & Hcfg & Hidx).
  cbv zeta in Hlist, Hoids, Hfresh, Hcfg, Hidx.
  destruct (Z.gtb_spec (len nl') 0) as [Hpos | Hzero].
  - exists (fold_left (PolyPlay.discover w) nl'
              (PolyPlay.set_player_list self kept)), kept, nl', added.
    repeat split; try assumption. intros _. exact Huntracked.
  - assert (nl' = []) as ->.
    { destruct nl'; [reflexivity | unfold len in Hzero; simpl in Hzero; lia]. }
    cbn [fold_left] in Hlist, Hoids, Hfresh, Hcfg, Hidx.
    exists (PolyPlay.set_player_list self kept), kept, [], added.
    repeat split; try assumption. intros _. exact Huntracked.
Qed.

(** X19: for every registry and every snapshot, in a world that answers the
    status queries, reconciliation leaves the registry as tracked players in
    their former order (some possibly left out), followed by newly built
    players whose names come from the snapshot and are not Stopped; the
    index and the configuration are not touched; and when the snapshot and
    the registry differ in size, every identifier of the snapshot that is
    not Stopped and is not the name of a tracked player is the name of one
    of the new players. *)
Theorem update_player_list_structure w self :
  exists self' kept added,
    PolyPlay._update_player_list w self = Ok self'
    /\ PolyPlay.player_list self' = kept ++ added
    /\ Subseq kept (PolyPlay.player_list self)
    /\ Forall (newly_built (PolyPlay.config self)) added
    /\ Forall (fun p =>
                 In (Player.player_name p) (Player.get_available_players w)
                 /\ stopped_on_discovery w (Player.player_name p) = false)
         added
    /\ PolyPlay.display_index self' = PolyPlay.display_index self
    /\ PolyPlay.config self' = PolyPlay.config self
    /\ (len (Player.get_available_players w)
        <> len (PolyPlay.player_list self) ->
        forall n, In n (Player.get_available_players w) ->
                  stopped_on_discovery w n = false ->
                  ~ In n (map Player.player_name (PolyPlay.player_list self)) ->
                  In n (map Player.player_name added)).
Proof.
  destruct (update_player_list_anatomy w self)
    as (self' & kept & unclaimed & added & Hrun & Hlist & Hsub & Hincl
        & Hnames & Hbuilt & _ & _ & _ & Hcfg & Hidx & Hfound).
  exists self', kept, added.
  split; [exact Hrun |]. split; [exact Hlist |]. split; [exact Hsub |].
  split; [exact Hbuilt |]. split; [| split; [exact Hidx |]; split; [exact Hcfg |]].
  - apply Forall_forall. intros p Hp.
    assert (Hin : In (Player.player_name p)
                    (filter (fun n => negb (stopped_on_discovery w n))
                       unclaimed)).
    { rewrite <- Hnames. apply in_map. exact Hp. }
    apply filter_In in Hin as [Hin Hst]. apply negb_true_iff in Hst.
    split; [apply Hincl, Hin | exact Hst].
  - intros Hsize n Hn Hst Huntracked. rewrite Hnames.
    apply filter_In. split; [apply (Hfound Hsize n Hn Huntracked) |].
    rewrite Hst. reflexivity.
Qed.

Lemma update_player_list_structure_witness :
  exists self',
    PolyPlay._update_player_list
      (Sample.world ["firefox"; "mpv"]%string "a,b,c")
      (Sample.polyplay [Sample.vlc] 0) = Ok self'
    /\ In (lit "mpv") (map Player.player_name (PolyPlay.player_list self'))
    /\ PolyPlay.display_index self' = 0.
Proof.
  destruct (update_player_list_structure
              (Sample.world ["firefox"; "mpv"]%string "a,b,c")
              (Sample.polyplay [Sample.vlc] 0))
    as (self' & kept & added & Hrun & Hlist & _ & _ & _ & Hidx & _ & Hfound).
  exists self'. split; [exact Hrun |]. split; [| exact Hidx].
  rewrite Hlist, map_app. apply in_or_app. right.
  apply Hfound.
  - vm_compute. discriminate.
  - right. left. reflexivity.
  - reflexivity.
  - apply contains_not_In. reflexivity.
Defined.

(** X20: reconciliation keeps the registry free of repeated objects: if no
    object occurs twice and every identity in use is below the next one to
    be handed out, the same holds afterwards. *)
Theorem update_player_list_keeps_objects_distinct w self :
  NoDup (map Player.oid (PolyPlay.player_list self)) ->
  Forall (fun p => (Player.oid p < PolyPlay.fresh self)%nat)
    (PolyPlay.player_list self) ->
  exists self',
    PolyPlay._update_player_list w self = Ok self'
    /\ NoDup (map Player.oid (PolyPlay.player_list self'))
    /\ Forall (fun p => (Player.oid p < PolyPlay.fresh self')%nat)
         (PolyPlay.player_list self').
Proof.
  intros Hnd Hbound.
  destruct (update_player_list_anatomy w self)
    as (self' & kept & unclaimed & added & Hrun & Hlist & Hsub & _
        & _ & _ & Hoids & Hnd' & Hfresh & _ & _).
  exists self'. split; [exact Hrun |]. rewrite Hlist.
  pose proof (Subseq_Forall _ _ _ Hsub Hbound) as Hkept.
  split.
  - rewrite map_app. apply NoDup_app.
    + apply (Subseq_NoDup _ _ (Subseq_map Player.oid _ _ Hsub) Hnd).
    + exact Hnd'.
    + intros o Hin1 Hin2.
      apply in_map_iff in Hin1 as (p & <- & Hp).
      apply in_map_iff in Hin2 as (q & Heq & Hq).
      rewrite Forall_forall in Hkept, Hoids.
      specialize (Hkept p Hp). specialize (Hoids q Hq). lia.
  - apply Forall_app. split; apply Forall_forall; intros p Hp.
    + rewrite Forall_forall in Hkept. specialize (Hkept p Hp). lia.
    + rewrite Forall_forall in Hoids. specialize (Hoids p Hp). lia.
Qed.

Lemma update_player_list_keeps_objects_distinct_witness :
  exists self',
    PolyPlay._update_player_list
      (Sample.world ["firefox"; "chromium"; "mpv"]%string "a,b,c")
      (Sample.polyplay [Sample.vlc; Sample.firefox] 0) = Ok self'
    /\ NoDup (map Player.oid (PolyPlay.player_list self'))
    /\ Forall (fun p => (Player.oid p < PolyPlay.fresh self')%nat)
         (PolyPlay.player_list self').
Proof.
  apply (update_player_list_keeps_objects_distinct
           (Sample.world ["firefox"; "chromium"; "mpv"]%string "a,b,c")
           (Sample.polyplay [Sample.vlc; Sample.firefox] 0)).
  - vm_compute. repeat constructor; simpl; intuition discriminate.
  - repeat constructor; vm_compute; lia.
Defined.

(** X21: start-up.  From an empty registry, reconciliation tracks exactly
    the identifiers of the snapshot that are not Stopped, in the order of
    the snapshot, each as a newly built player. *)
Theorem update_player_list_from_empty w self :
  PolyPlay.player_list self = [] ->
  exists self',
    PolyPlay._update_player_list w self = Ok self'
    /\ map Player.player_name (PolyPlay.player_list self')
       = filter (fun n => negb (stopped_on_discovery w n))
           (Player.get_available_players w)
    /\ Forall (newly_built (PolyPlay.config self)) (PolyPlay.player_list self').
Proof.
  intros Hempty. unfold PolyPlay._update_player_list. cbv zeta.
  rewrite Hempty. cbn [List.length].
  destruct (Z.eqb_spec (len (Player.get_available_players w)) (len (@nil Player.t)))
    as [Hnone | Hsome]; cbn [negb].
  - exists self. split; [reflexivity |]. rewrite Hempty.
    assert (Player.get_available_players w = []) as ->.
    { destruct (Player.get_available_players w); [reflexivity |].
      unfold len in Hnone. simpl in Hnone. lia. }
    split; [reflexivity | constructor].
  - rewrite prune_unfold. cbn [nth_error bind fst snd].
    destruct (discover_fold w (Player.get_available_players w)
                (PolyPlay.set_player_list self []))
      as (added & Hlist & Hnames & Hbuilt & _).
    cbv zeta in Hlist.
    change (PolyPlay.player_list (PolyPlay.set_player_list self []))
      with (@nil Player.t) in Hlist.
    change (PolyPlay.config (PolyPlay.set_player_list self []))
      with (PolyPlay.config self) in Hbuilt.
    cbn [app] in Hlist.
    destruct (Z.gtb_spec (len (Player.get_available_players w)) 0)
      as [_ | Hzero].
    + eexists. split; [reflexivity |]. rewrite Hlist.
      split; [exact Hnames | exact Hbuilt].
    + exfalso. apply Hsome. unfold len in *. simpl.
      destruct (Player.get_available_players w); simpl in *; lia.
Qed.

Lemma update_player_list_from_empty_witness :
  exists self',
    PolyPlay._update_player_list
      {| Playerctl.available_players := [lit "vlc"; lit "firefox"; lit "mpv"];
         Playerctl.status :=
           fun n => if str_eqb n (lit "firefox") then lit "Stopped"
                    else lit "Playing";
         Playerctl.metadata_output := fun _ => lit "a,b,c" |}
      PolyPlay.init = Ok self'
    /\ map Player.player_name (PolyPlay.player_list self')
       = [lit "vlc"; lit "mpv"].
Proof.
  destruct (update_player_list_from_empty
              {| Playerctl.available_players :=
                   [lit "vlc"; lit "firefox"; lit "mpv"];
                 Playerctl.status :=
                   fun n => if str_eqb n (lit "firefox") then lit "Stopped"
                            else lit "Playing";
                 Playerctl.metadata_output := fun _ => lit "a,b,c" |}
              PolyPlay.init eq_refl) as (self' & Hrun & Hnames & _).
  exists self'. split; [exact Hrun | exact Hnames].
Defined.
